(** * thermoelectricProperties: a shallow embedding of the transport engine

    The Python class [thermoelectricProperties] computes with numpy arrays of
    float64.  The embedding keeps the structure of the source:

    - a float is an [npfloat]: a real number, or one of the IEEE special
      values [+inf], [-inf] and [nan] that numpy produces on division by
      zero, on the logarithm of a non-positive number and on [inf - inf].
      Finite values are exact reals: rounding and the sign of zero are not
      represented, and of the overflows only those of [np.exp] and of the
      power of a Python float, which raises.  The energy grid and the
      selection of the self-consistent Fermi level, whose claims depend
      on the rounding, are also given in binary64 ([Binary64], on the
      floats of [SpecFloat]);
    - an array is an [ndarray]: a two-dimensional shape and an index
      function.  Binary operators broadcast as numpy does (a dimension of
      size one is stretched) and raise [ValueError] otherwise.  A one
      dimensional array of length [n] is kept as a row of shape [(1, n)],
      which is how numpy broadcasts it;
    - a Python exception is a value of [pyerr]; a function that may raise
      returns a [res]. *)

From Stdlib Require Import Reals Lra Lia String List Arith Bool ZArith.
From Stdlib Require SpecFloat.
Import ListNotations.

Set Implicit Arguments.

(** ** Floats *)

Inductive npfloat : Type :=
| Fin (x : R)
| PInf
| NInf
| NaN.

Module Float.

Open Scope R_scope.

(** Sign of a real number, as a [comparison] with zero. *)
Definition sgn (x : R) : comparison :=
  match total_order_T x 0 with
  | inleft (left _) => Lt
  | inleft (right _) => Eq
  | inright _ => Gt
  end.

Definition sgn_mul (a b : comparison) : comparison :=
  match a, b with
  | Eq, _ | _, Eq => Eq
  | Gt, Gt | Lt, Lt => Gt
  | _, _ => Lt
  end.

(** The infinity of a given sign; a zero sign stands for an invalid
    operation ([0 * inf], [0 / 0]). *)
Definition inf_of_sign (c : comparison) : npfloat :=
  match c with
  | Gt => PInf
  | Lt => NInf
  | Eq => NaN
  end.

Definition fsgn (a : npfloat) : comparison :=
  match a with
  | Fin x => sgn x
  | PInf => Gt
  | NInf => Lt
  | NaN => Eq
  end.

Definition isnan (a : npfloat) : bool :=
  match a with NaN => true | _ => false end.

Definition isinf (a : npfloat) : bool :=
  match a with PInf | NInf => true | _ => false end.

Definition isfinite (a : npfloat) : bool :=
  match a with Fin _ => true | _ => false end.

Definition fopp (a : npfloat) : npfloat :=
  match a with
  | Fin x => Fin (- x)
  | PInf => NInf
  | NInf => PInf
  | NaN => NaN
  end.

Definition fadd (a b : npfloat) : npfloat :=
  match a, b with
  | NaN, _ | _, NaN => NaN
  | Fin x, Fin y => Fin (x + y)
  | PInf, NInf | NInf, PInf => NaN
  | PInf, _ | _, PInf => PInf
  | NInf, _ | _, NInf => NInf
  end.

Definition fsub (a b : npfloat) : npfloat := fadd a (fopp b).

Definition fmul (a b : npfloat) : npfloat :=
  match a, b with
  | NaN, _ | _, NaN => NaN
  | Fin x, Fin y => Fin (x * y)
  | _, _ => inf_of_sign (sgn_mul (fsgn a) (fsgn b))
  end.

(** Division.  A finite number divided by zero is the infinity of the sign
    of the dividend, [0 / 0] is [nan]; an infinity divided by a finite
    number keeps or flips its sign, zero counting as positive. *)
Definition fdiv (a b : npfloat) : npfloat :=
  match a, b with
  | NaN, _ | _, NaN => NaN
  | Fin x, Fin y =>
      match sgn y with
      | Eq => inf_of_sign (sgn x)
      | _ => Fin (x / y)
      end
  | Fin _, _ => Fin 0
  | _, Fin y =>
      match sgn y with
      | Lt => fopp a
      | _ => a
      end
  | _, _ => NaN
  end.

Definition fabs (a : npfloat) : npfloat :=
  match a with
  | Fin x => Fin (Rabs x)
  | PInf | NInf => PInf
  | NaN => NaN
  end.

(** [np.exp].  In float64 the result is [inf] from [e^x >= 2^1024] on and
    zero from [e^x <= 2^-1075] on; between the two bounds the value is the
    exact real. *)
Definition exp_overflow : R := 1024 * ln 2.
Definition exp_underflow : R := - (1075 * ln 2).

Definition fexp (a : npfloat) : npfloat :=
  match a with
  | Fin x =>
      if Rle_dec exp_overflow x then PInf
      else if Rle_dec x exp_underflow then Fin 0
      else Fin (exp x)
  | PInf => PInf
  | NInf => Fin 0
  | NaN => NaN
  end.

(** [np.log]: [-inf] at zero, [nan] below. *)
Definition flog (a : npfloat) : npfloat :=
  match a with
  | Fin x =>
      match sgn x with
      | Gt => Fin (ln x)
      | Eq => NInf
      | Lt => NaN
      end
  | PInf => PInf
  | NInf => NaN
  | NaN => NaN
  end.

(** [np.sqrt] *)
Definition fsqrt (a : npfloat) : npfloat :=
  match a with
  | Fin x =>
      match sgn x with
      | Lt => NaN
      | _ => Fin (sqrt x)
      end
  | PInf => PInf
  | NInf => NaN
  | NaN => NaN
  end.

(** [a ** y] for a positive exponent [y] that is not an integer
    ([3/2], [5/2], [1/3]): [nan] for a negative base. *)
Definition fpow (a : npfloat) (y : R) : npfloat :=
  match a with
  | Fin x =>
      match sgn x with
      | Gt => Fin (Rpower x y)
      | Eq => Fin 0
      | Lt => NaN
      end
  | PInf | NInf => PInf
  | NaN => NaN
  end.

(** [a ** 2] *)
Definition fsqr (a : npfloat) : npfloat := fmul a a.

(** IEEE comparisons: every comparison with [nan] is false. *)
Definition flt (a b : npfloat) : bool :=
  match a, b with
  | NaN, _ | _, NaN => false
  | Fin x, Fin y => if Rlt_dec x y then true else false
  | NInf, NInf => false
  | NInf, _ => true
  | _, PInf => match a with PInf => false | _ => true end
  | _, _ => false
  end.

Definition feq (a b : npfloat) : bool :=
  match a, b with
  | Fin x, Fin y => if Req_dec_T x y then true else false
  | PInf, PInf | NInf, NInf => true
  | _, _ => false
  end.

Definition fle (a b : npfloat) : bool := flt a b || feq a b.

(** [a >= b] *)
Definition fge (a b : npfloat) : bool := fle b a.

End Float.

Export Float.

(** ** Exceptions and results *)

Inductive pyerr : Type :=
| ValueError
| ZeroDivisionError
| TypeError
| IndexError
| OverflowError
| NameError (name : string).

Inductive res (A : Type) : Type :=
| Ok (a : A)
| Raise (e : pyerr).

Arguments Raise {A} e.

Definition bind {A B : Type} (x : res A) (k : A -> res B) : res B :=
  match x with
  | Ok a => k a
  | Raise e => Raise e
  end.

Notation "x <- c ;; k" := (bind c (fun x => k))
  (at level 61, c at next level, right associativity).

(** ** Arrays *)

Record ndarray : Type := mkarr {
  nrows : nat;
  ncols : nat;
  item : nat -> nat -> npfloat
}.

Module Nd.

(** Broadcasting of one dimension: equal sizes, or one of them is 1. *)
Definition bdim (n m : nat) : option nat :=
  if n =? m then Some n
  else if n =? 1 then Some m
  else if m =? 1 then Some n
  else None.

(** Index into a dimension of size [n] that may have been stretched. *)
Definition bidx (n i : nat) : nat := if n =? 1 then 0%nat else i.

(** Elementwise binary operator with broadcasting. *)
Definition bop (f : npfloat -> npfloat -> npfloat) (a b : ndarray)
  : res ndarray :=
  match bdim (nrows a) (nrows b), bdim (ncols a) (ncols b) with
  | Some r, Some c =>
      Ok (mkarr r c (fun i j =>
            f (item a (bidx (nrows a) i) (bidx (ncols a) j))
              (item b (bidx (nrows b) i) (bidx (ncols b) j))))
  | _, _ => Raise ValueError
  end.

(** Operands are evaluated left to right; the first exception wins. *)
Definition lift2 (f : npfloat -> npfloat -> npfloat) (x y : res ndarray)
  : res ndarray :=
  a <- x ;; b <- y ;; bop f a b.

(** Elementwise unary function ([np.exp], [np.log], [abs], [**]). *)
Definition amap (f : npfloat -> npfloat) (a : ndarray) : ndarray :=
  mkarr (nrows a) (ncols a) (fun i j => f (item a i j)).

Definition lift1 (f : npfloat -> npfloat) (x : res ndarray) : res ndarray :=
  a <- x ;; Ok (amap f a).

(** A Python or numpy scalar, which broadcasts against every shape. *)
Definition scalar (v : npfloat) : ndarray := mkarr 1 1 (fun _ _ => v).
Definition sc (v : npfloat) : res ndarray := Ok (scalar v).

(** A row [(1, n)] built from a list. *)
Definition row (l : list npfloat) : ndarray :=
  mkarr 1 (length l) (fun _ j => nth j l NaN).

(** [a.T] *)
Definition transpose (a : ndarray) : ndarray :=
  mkarr (ncols a) (nrows a) (fun i j => item a j i).

(** [a[mask(a)] = v]: overwrite the entries selected by a mask. *)
Definition setwhere (p : npfloat -> bool) (v : npfloat) (a : ndarray)
  : ndarray :=
  mkarr (nrows a) (ncols a)
        (fun i j => if p (item a i j) then v else item a i j).

(** Sum of [f 0 .. f (n-1)]. *)
Fixpoint fsum (f : nat -> npfloat) (n : nat) : npfloat :=
  match n with
  | O => Fin 0
  | S k => fadd (fsum f k) (f k)
  end.

(** [a.sum(axis=1)]: one value per row, returned as a row. *)
Definition sum_axis1 (a : ndarray) : ndarray :=
  mkarr 1 (nrows a) (fun _ i => fsum (fun j => item a i j) (ncols a)).

(** [a[:, 1:]] and [a[:, :-1]] *)
Definition tail_cols (a : ndarray) : ndarray :=
  mkarr (nrows a) (ncols a - 1) (fun i j => item a i (S j)).
Definition init_cols (a : ndarray) : ndarray :=
  mkarr (nrows a) (ncols a - 1) (fun i j => item a i j).

(** Equality of arrays: same shape, same entries. *)
Definition arr_eq (a b : ndarray) : Prop :=
  nrows a = nrows b /\ ncols a = ncols b /\
  forall i j, (i < nrows a)%nat -> (j < ncols a)%nat ->
              item a i j = item b i j.

(** An expression evaluates to an array of shape [(r, c)] whose entries are
    given by [f]. *)
Definition evals (x : res ndarray) (r c : nat) (f : nat -> nat -> npfloat)
  : Prop :=
  exists a, x = Ok a /\ nrows a = r /\ ncols a = c /\
            forall i j, (i < r)%nat -> (j < c)%nat -> item a i j = f i j.

Definition res_eq (x y : res ndarray) : Prop :=
  match x, y with
  | Ok a, Ok b => arr_eq a b
  | Raise e, Raise e' => e = e'
  | _, _ => False
  end.

End Nd.

Export Nd.

Declare Scope nd_scope.
Delimit Scope nd_scope with nd.
Bind Scope nd_scope with ndarray.
Notation "x + y" := (lift2 fadd x y) : nd_scope.
Notation "x - y" := (lift2 fsub x y) : nd_scope.
Notation "x * y" := (lift2 fmul x y) : nd_scope.
Notation "x / y" := (lift2 fdiv x y) : nd_scope.
Notation "- x" := (lift1 fopp x) : nd_scope.

(** ** numpy routines the class calls *)

Module np.

Open Scope R_scope.

(** [x ** 2] and [x ** y] on arrays *)
Definition sqr (x : res ndarray) : res ndarray := lift1 fsqr x.
Definition power (x : res ndarray) (y : R) : res ndarray :=
  lift1 (fun a => fpow a y) x.

(** One entry of [np.linspace(start, stop, num)] ([endpoint=True]):
    [y = arange(0, num) * step + start] with [step = (stop - start) / div],
    [div = num - 1], and the last entry overwritten by [stop].  When some
    step is zero numpy divides by [div] first. *)
Definition linspace_val (start stop : npfloat) (num : nat)
           (any_step_zero : bool) (i : nat) : npfloat :=
  let delta := fsub stop start in
  let div := (num - 1)%nat in
  let y := Fin (INR i) in
  let y :=
    if (0 <? div)%nat then
      if any_step_zero
      then fmul (fdiv y (Fin (INR div))) delta
      else fmul y (fdiv delta (Fin (INR div)))
    else fmul y delta in
  let y := fadd y start in
  if ((1 <? num)%nat && (i =? num - 1)%nat)%bool then stop else y.

(** [np.linspace] on scalars: a negative [num] raises [ValueError]. *)
Definition linspace (start stop : npfloat) (num : Z) : res ndarray :=
  if (num <? 0)%Z then Raise ValueError
  else
    let n := Z.to_nat num in
    let step := fdiv (fsub stop start) (Fin (INR (n - 1))) in
    Ok (mkarr 1 n (fun _ i =>
          linspace_val start stop n (feq step (Fin 0)) i)).

(** [np.linspace] on two one-dimensional arrays: the result has shape
    [(num, n)], one column per pair of endpoints. *)
Definition linspace_nd (start stop : ndarray) (num : nat) : res ndarray :=
  delta <- bop fsub stop start ;;
  let step j := fdiv (item delta 0 j) (Fin (INR (num - 1))) in
  let any_step_zero :=
    existsb (fun j => feq (step j) (Fin 0)) (seq 0 (ncols delta)) in
  Ok (mkarr num (ncols delta) (fun i j =>
        linspace_val (item start 0 (bidx (ncols start) j))
                     (item stop 0 (bidx (ncols stop) j))
                     num any_step_zero i)).

(** Ceiling of a real number as a natural number (zero when negative). *)
Definition ceil_nat (x : R) : nat := Z.to_nat (1 - up (- x)).

(** [np.arange(start, stop, step)] on Python floats:
    [ceil((stop - start) / step)] values [start + i * step].  numpy
    computes the quotient in float64, so that next to an integer quotient
    its length can exceed this one by one ([np.arange(0.1, 0.4, 0.1)] has
    four values); what is proved of the sweeps depends on no length. *)
Definition arange (start stop step : R) : res (list R) :=
  if Req_dec_T step 0 then Raise ZeroDivisionError
  else
    Ok (map (fun i => start + INR i * step)
            (seq 0 (ceil_nat ((stop - start) / step)))).

(** [np.trapz(y, x, axis=1)]:
    [d = diff(x); (d * (y[:, 1:] + y[:, :-1]) / 2.0).sum(axis=1)]. *)
Definition trapz (y x : ndarray) : res ndarray :=
  s <- ((Ok (tail_cols x) - Ok (init_cols x))
        * (Ok (tail_cols y) + Ok (init_cols y)) / sc (Fin 2))%nd ;;
  Ok (sum_axis1 s).

(** The scan of [np.argmin] over [f 0 .. f (n-1)]: the current minimum is
    replaced when [not (f i >= min)]; a [nan] ends the scan. *)
Fixpoint argmin_loop (f : nat -> npfloat) (i rem min_ind : nat) : nat :=
  match rem with
  | O => min_ind
  | S r =>
      if negb (fge (f i) (f min_ind)) then
        if isnan (f i) then i else argmin_loop f (S i) r i
      else argmin_loop f (S i) r min_ind
  end.

Definition argmin (f : nat -> npfloat) (n : nat) : nat :=
  if isnan (f 0%nat) then 0%nat else argmin_loop f 1 (n - 1) 0.

(** [np.argmin(a, axis=1)]; an empty axis raises [ValueError]. *)
Definition argmin_axis1 (a : ndarray) : res (nat -> nat) :=
  if (ncols a =? 0)%nat then Raise ValueError
  else Ok (fun i => argmin (fun j => item a i j) (ncols a)).

(** [np.tile(a, (1, k))] *)
Definition tile_cols (a : ndarray) (k : nat) : ndarray :=
  mkarr (nrows a) (ncols a * k)
        (fun i j => item a i (j mod ncols a)).

(** [a[0]]: the first row. *)
Definition row0 (a : ndarray) : res ndarray :=
  if (nrows a =? 0)%nat then Raise IndexError
  else Ok (mkarr 1 (ncols a) (fun _ j => item a 0 j)).

(** [np.reshape(l, (n, m))] of a flat sequence. *)
Definition reshape (l : list npfloat) (n m : nat) : res ndarray :=
  if (List.length l =? n * m)%nat
  then Ok (mkarr n m (fun i j => nth (i * m + j) l NaN))
  else Raise ValueError.

End np.

Import np.

(** ** Loops *)

(** A [for] loop whose body may raise: the first exception ends it. *)
Fixpoint mapM {A B : Type} (f : A -> res B) (l : list A) : res (list B) :=
  match l with
  | [] => Ok []
  | a :: l' => b <- f a ;; bs <- mapM f l' ;; Ok (b :: bs)
  end.

Fixpoint foldM {A S : Type} (f : S -> A -> res S) (l : list A) (s : S)
  : res S :=
  match l with
  | [] => Ok s
  | a :: l' => s' <- f s a ;; foldM f l' s'
  end.

(** Two nested loops writing [cell j i] into entry [(j, i)] of an array of
    shape [(m, n)], row by row. *)
Definition fill (m n : nat) (cell : nat -> nat -> res npfloat) : res ndarray :=
  rows <- mapM (fun j => mapM (fun i => cell j i) (seq 0 n)) (seq 0 m) ;;
  Ok (mkarr m n (fun j i => nth i (nth j rows []) NaN)).

(** ** The class and its constants *)

Module thermoelectricProperties.

Open Scope R_scope.

Definition hBar : R := 6582119 / 10 ^ 22.      (* 6.582119e-16 eV.s *)
Definition kB : R := 8617330350 / 10 ^ 14.     (* 8.617330350e-5 eV/K *)
Definition e2C : R := 16021765 / 10 ^ 26.      (* 1.6021765e-19 *)
Definition e0 : R := 8854187817 / 10 ^ 21.     (* 8.854187817e-12 F/m *)
Definition Ang2meter : R := 1 / 10 ^ 10.
Definition me : R := 9109 / 10 ^ 34.           (* 9.109e-31 *)

(** The attributes of an instance that the methods below read. *)
Record self : Type := mkself {
  energyMin : npfloat;
  energyMax : npfloat;
  numEnergySampling : Z;
  dielectric : npfloat
}.

(** [energyRange(self)]:
    [np.expand_dims(np.linspace(energyMin, energyMax, numEnergySampling),
    axis=0)]; the row of length [n] becomes an array of shape [(1, n)]. *)
Definition energyRange (s : self) : res ndarray :=
  linspace (energyMin s) (energyMax s) (numEnergySampling s).

(** [temp(self, TempMin=300, TempMax=1301, dT=100)] with its defaults:
    [np.arange(300, 1301, 100)] as a row.  In the code these eleven
    temperatures are integers (int64); they are given here by their
    values, which no operation of the class takes out of the range where
    int64 and float64 agree. *)
Definition temp : ndarray :=
  row (map (fun k => Fin (300 + 100 * INR k)) (seq 0 11)).

(** [bandGap(self, Eg_o, Ao, Bo, Temp=None)]:
    [Eg = Eg_o - Ao * np.divide(T**2, T + Bo)], with the default
    temperatures when [Temp] is omitted.  [T**2] is computed in the type
    of [T]: for an array of integers beyond 3e9 it wraps around, and for
    floats beyond 1e154 it is [inf]; neither is represented. *)
Definition bandGap (Eg_o Ao Bo : npfloat) (Temp : option ndarray)
  : res ndarray :=
  let T := match Temp with None => temp | Some T => T end in
  (sc Eg_o - sc Ao * (sqr (Ok T) / (Ok T + sc Bo)))%nd.

(** [fermiDistribution(self, energyRange, fermiLevel, Temp=None)] returns
    [np.array([fermiDirac, dfdE])], here the pair of the two arrays. *)
Definition fermiDistribution (energyRange fermiLevel : ndarray)
           (Temp : option ndarray) : res (ndarray * ndarray) :=
  let T := match Temp with None => temp | Some T => T end in
  xi <- lift1 fexp
          ((Ok energyRange - Ok (transpose fermiLevel))
           / Ok (transpose T) / sc (Fin kB))%nd ;;
  fermiDirac <- (sc (Fin 1) / (Ok xi + sc (Fin 1)))%nd ;;
  dfdE <- (sc (Fin (-1)) * Ok xi / sqr (sc (Fin 1) + Ok xi)
           / Ok (transpose T) / sc (Fin kB))%nd ;;
  Ok (fermiDirac, dfdE).

(** *** [fermiLevelSelfConsistent] *)

(** [fermi = np.linspace(fermilevel[0]-0.2, fermilevel[0]+0.2, 4000,
    endpoint=True).T]: one row of 4000 candidates per temperature index. *)
Definition fermi_candidates (fermilevel : ndarray) : res ndarray :=
  fl0 <- row0 fermilevel ;;
  lo <- (Ok fl0 - sc (Fin (2 / 10)))%nd ;;
  hi <- (Ok fl0 + sc (Fin (2 / 10)))%nd ;;
  fermiT <- linspace_nd lo hi 4000 ;;
  Ok (transpose fermiT).

(** The body of the two loops: the carrier concentration
    [np.trapz(np.multiply(DoS, f), energyRange, axis=1)] for the Fermi level
    [i] and the temperature [j], stored in one cell of [result_array]. *)
Definition concentration_at (energyRange DoS : ndarray) (i j : npfloat)
  : res npfloat :=
  ff <- fermiDistribution energyRange (scalar i) (Some (scalar j)) ;;
  df <- bop fmul DoS (fst ff) ;;
  tmp <- trapz df energyRange ;;
  if (ncols tmp =? 1)%nat then Ok (item tmp 0 0) else Raise ValueError.

Definition result_array (Temp energyRange DoS fermi : ndarray)
  : res ndarray :=
  Temp0 <- row0 Temp ;;
  fill (ncols Temp) (ncols fermi)
       (fun idx_j idx_i =>
          if (idx_j <? nrows fermi)%nat
          then concentration_at energyRange DoS
                 (item fermi idx_j idx_i) (item Temp0 0 idx_j)
          else Raise IndexError).

(** [diff = np.tile(np.transpose(carrierConcentration), (1, 4000))
           - abs(result_array)]; [min_idx = np.argmin(np.abs(diff), axis=1)] *)
Definition abs_diff (carrierConcentration fermi results : ndarray)
  : res ndarray :=
  diff <- (Ok (tile_cols (transpose carrierConcentration) (ncols fermi))
           - lift1 fabs (Ok results))%nd ;;
  Ok (amap fabs diff).

(** The result [[Ef, n]] together with [min_idx].  [Ef] and [n] are
    allocated by [np.empty((1, np.shape(Temp)[1]))] and written at the
    indices of [min_idx]. *)
Definition fermiLevelSelfConsistent_idx
           (carrierConcentration Temp energyRange DoS fermilevel : ndarray)
  : res (ndarray * ndarray * (nat -> nat)) :=
  fermi <- fermi_candidates fermilevel ;;
  results <- result_array Temp energyRange DoS fermi ;;
  adiff <- abs_diff carrierConcentration fermi results ;;
  min_idx <- argmin_axis1 adiff ;;
  let len := nrows adiff in
  if ((len <=? ncols Temp) && (len <=? nrows fermi))%nat%bool then
    let Ef := mkarr 1 (ncols Temp) (fun _ k =>
                if (k <? len)%nat then item fermi k (min_idx k) else NaN) in
    let n := mkarr 1 (ncols Temp) (fun _ k =>
                if (k <? len)%nat then item results k (min_idx k) else NaN) in
    Ok (Ef, n, min_idx)
  else Raise IndexError.

Definition fermiLevelSelfConsistent
           (carrierConcentration Temp energyRange DoS fermilevel : ndarray)
  : res (ndarray * ndarray) :=
  r <- fermiLevelSelfConsistent_idx carrierConcentration Temp energyRange
         DoS fermilevel ;;
  Ok (fst (fst r), snd (fst r)).

(** *** Scattering *)

(** [matthiessen(self, *args)]:
    [tau = 1. / sum([1. / arg for arg in args]); tau[np.isinf(tau)] = 0].
    Python's [sum] starts from the integer [0]; with no argument the
    denominator is that integer and the division raises. *)
Definition pysum (l : list (res ndarray)) : res ndarray :=
  fold_left (fun acc x => (acc + x)%nd) l (sc (Fin 0)).

Definition matthiessen (args : list ndarray) : res ndarray :=
  match args with
  | [] => Raise ZeroDivisionError
  | _ =>
      tau <- (sc (Fin 1)
              / pysum (map (fun arg => sc (Fin 1) / Ok arg) args))%nd ;;
      Ok (setwhere isinf (Fin 0) tau)
  end.

(** Division of two Python floats. *)
Definition pydiv (a b : npfloat) : res ndarray :=
  if feq b (Fin 0) then Raise ZeroDivisionError else sc (fdiv a b).

(** [x ** 2] on a Python float: unlike numpy, Python raises
    [OverflowError] when the square of a finite number is too large for a
    float64, that is from [x^2 >= 2^1024 - 2^970] on, the first real number
    that rounds to infinity. *)
Definition float_overflow : R := (2 - / 2 ^ 53) * 2 ^ 1023.

Definition pysqr (x : npfloat) : res ndarray :=
  match x with
  | Fin v =>
      if Rle_dec float_overflow (v * v) then Raise OverflowError
      else sc (Fin (v * v))
  | _ => sc (fsqr x)
  end.

(** [tau_p(self, energyRange, alpha, Dv, DA, T, vs, D, rho)]; [Dv], [DA],
    [vs] and [rho] are Python floats. *)
Definition nonparabolic_term (energyRange alpha : ndarray) (Dv DA : npfloat)
  : res ndarray :=
  let aE := (Ok (transpose alpha) * Ok energyRange)%nd in
  let aE2 := (sc (Fin 2) * Ok (transpose alpha) * Ok energyRange)%nd in
  (sqr (sc (Fin 1) - aE / (sc (Fin 1) + aE2) * (sc (Fin 1) - pydiv Dv DA))
   - sc (Fin (8 / 3)) * aE * (sc (Fin 1) + aE) / sqr (sc (Fin 1) + aE2)
     * pydiv Dv DA)%nd.

Definition tau_p (energyRange alpha : ndarray) (Dv DA : npfloat)
           (T : ndarray) (vs : npfloat) (D : ndarray) (rho : npfloat)
  : res (ndarray * ndarray) :=
  nonparabolic <- nonparabolic_term energyRange alpha Dv DA ;;
  tau <- (sc rho * pysqr vs * sc (Fin hBar) / sc (Fin PI) / sc (Fin kB)
          / Ok (transpose T) / sc DA / sc DA * sc (Fin (10 ^ 9))
          / sc (Fin e2C) / Ok D)%nd ;;
  taup <- bop fdiv tau nonparabolic ;;
  Ok (tau, taup).

(** [4*np.pi*self.dielectric*e0] *)
Definition four_pi_eps (s : self) : res ndarray :=
  (sc (Fin 4) * sc (Fin PI) * sc (dielectric s) * sc (Fin e0))%nd.

(** The prefactor shared by the screened and the unscreened routine:
    [16*np.pi*np.sqrt(2*m_c.T)*(4*np.pi*self.dielectric*e0)**2/N.T/var_tmp
     *energyRange**(3/2)/e2C**(5/2)] *)
Definition coulomb_tau (s : self) (energyRange m_c N : ndarray)
           (var_tmp : res ndarray) : res ndarray :=
  (sc (Fin 16) * sc (Fin PI)
   * lift1 fsqrt (sc (Fin 2) * Ok (transpose m_c))
   * sqr (four_pi_eps s) / Ok (transpose N) / var_tmp
   * power (Ok energyRange) (3 / 2) / sc (Fin (Rpower e2C (5 / 2))))%nd.

(** [tau_Screened_Coulomb(self, energyRange, m_c, LD, N)] *)
Definition tau_Screened_Coulomb (s : self) (energyRange m_c LD N : ndarray)
  : res ndarray :=
  g <- (sc (Fin 8) * Ok (transpose m_c) * sqr (Ok (transpose LD))
        * Ok energyRange / sc (Fin (hBar ^ 2)) / sc (Fin e2C))%nd ;;
  var_tmp <- (lift1 flog (sc (Fin 1) + Ok g)
              - Ok g / (sc (Fin 1) + Ok g))%nd ;;
  tau <- coulomb_tau s energyRange m_c N (Ok var_tmp) ;;
  Ok (setwhere isnan (Fin 0) tau).

(** [tau_Unscreened_Coulomb(self, energyRange, m_c, N)] *)
Definition tau_Unscreened_Coulomb (s : self) (energyRange m_c N : ndarray)
  : res ndarray :=
  g <- (sc (Fin 4) * sc (Fin PI) * four_pi_eps s * Ok energyRange
        / power (Ok (transpose N)) (1 / 3) / sc (Fin e2C))%nd ;;
  var_tmp <- lift1 flog (sc (Fin 1) + sqr (Ok g))%nd ;;
  tau <- coulomb_tau s energyRange m_c N (Ok var_tmp) ;;
  Ok (setwhere isnan (Fin 0) tau).

(** [tau_Strongly_Screened_Coulomb(self, D, LD, N)]: the formula is
    returned as computed. *)
Definition tau_Strongly_Screened_Coulomb (s : self) (D LD N : ndarray)
  : res ndarray :=
  (sc (Fin hBar) / Ok (transpose N) / sc (Fin PI) / Ok D
   / sqr (sqr (Ok (transpose LD)) / four_pi_eps s)
   * sc (Fin 1) / sc (Fin (e2C ^ 2)))%nd.

(** *** Transport *)

Record coefficients : Type := mkcoeff {
  coef_Sigma : ndarray;
  coef_S : ndarray;
  coef_PF : ndarray;
  coef_ke : ndarray;
  coef_delta_1 : ndarray;
  coef_delta_2 : ndarray;
  coef_Lorenz : ndarray
}.

(** [np.trapz(a, E, axis=1)] of an expression that may have raised. *)
Definition trapzE (a : res ndarray) (E : ndarray) : res ndarray :=
  y <- a ;; trapz y E.

(** [electricalProperties(self, E, DoS, vg, Ef, dfdE, Temp, tau)] returns
    [[Sigma, S[0], PF[0], ke[0], delta_1, delta_2, Lorenz[0]]]. *)
Definition electricalProperties (E DoS vg Ef dfdE Temp tau : ndarray)
  : res coefficients :=
  X <- (Ok DoS * sqr (Ok vg) * Ok dfdE)%nd ;;
  Y <- ((Ok E - Ok (transpose Ef)) * Ok X)%nd ;;
  Z <- ((Ok E - Ok (transpose Ef)) * Ok Y)%nd ;;
  Sigma <- (sc (Fin (-1)) * trapzE (Ok X * Ok tau) E / sc (Fin 3)
            * sc (Fin e2C))%nd ;;
  S <- (sc (Fin (-1)) * trapzE (Ok Y * Ok tau) E
        / trapzE (Ok X * Ok tau) E / Ok Temp)%nd ;;
  PF <- (Ok Sigma * sqr (Ok S))%nd ;;
  ke <- (sc (Fin (-1))
         * (trapzE (Ok Z * Ok tau) E
            - sqr (trapzE (Ok Y * Ok tau) E) / trapzE (Ok X * Ok tau) E)
         / Ok Temp / sc (Fin 3) * sc (Fin e2C))%nd ;;
  delta_0 <- trapzE (Ok X * Ok tau * Ok E)%nd E ;;
  delta_1 <- (trapzE (Ok X * Ok tau * Ok E) E
              / trapzE (Ok X * Ok tau) E)%nd ;;
  delta_2 <- (trapzE (Ok X * Ok tau * sqr (Ok E)) E
              / trapzE (Ok X * Ok tau) E)%nd ;;
  Lorenz <- ((Ok delta_2 - sqr (Ok delta_1)) / Ok Temp / Ok Temp)%nd ;;
  S0 <- row0 S ;;
  PF0 <- row0 PF ;;
  ke0 <- row0 ke ;;
  Lorenz0 <- row0 Lorenz ;;
  Ok (mkcoeff Sigma S0 PF0 ke0 delta_1 delta_2 Lorenz0).

(** *** The filtering sweep *)

(** Names bound at the top level of the module (its imports and the
    class), and the builtins the module uses. *)
Definition module_globals : list string :=
  ["np"; "norm"; "expanduser"; "InterpolatedUnivariateSpline";
   "PchipInterpolator"; "jv"; "mpl"; "cm"; "repmat"; "plt"; "Axes";
   "matplotlib"; "FormatStrFormatter"; "ScalarFormatter"; "mplot3d";
   "LightSource"; "sns"; "accum"; "thermoelectricProperties"]%string.

Definition builtins : list string :=
  ["len"; "abs"; "sum"; "range"; "print"; "float"; "open"; "next"; "list";
   "Exception"]%string.

(** Names that are parameters of [filteringEffect] or assigned in its
    body; every other name of the body is looked up as a global. *)
Definition filteringEffect_locals : list string :=
  ["self"; "U0"; "tau0"; "tauOff"; "energyRange"; "electronBandStructure";
   "temp"; "electronDoS"; "electronGroupVelocity"; "bandGap";
   "carrierConcentration"; "fermiLevel"; "fermiDistribution"; "factor";
   "q"; "uIncrement"; "tauIncrement"; "tempIndex"; "n"; "m"; "sMatrix";
   "_"; "__"; "tauInc"; "tau_on"; "s"; "r"; "c"; "pf"; "X"; "Y"]%string.

Definition mem (x : string) (l : list string) : bool :=
  existsb (String.eqb x) l.

(** Reading a name inside [filteringEffect]. *)
Definition load_name (x : string) : res unit :=
  if mem x filteringEffect_locals then Ok tt
  else if mem x module_globals then Ok tt
  else if mem x builtins then Ok tt
  else Raise (NameError x).

(** One cell of the sweep, for the barrier height [_] and the lifetime
    [__].  The body starts with [tauInc = np.ones(len(Erange))]; had the
    name resolved, the call of [electricalProperties] with twelve arguments
    for its seven parameters would raise [TypeError]. *)
Definition filtering_cell (U tau : R) : res npfloat :=
  _ <- load_name "Erange" ;;
  Raise TypeError.

(** The state of the loops: [n], [m] and the flat [sMatrix]. *)
Record sweep : Type := mksweep {
  sweep_n : nat;
  sweep_m : nat;
  sMatrix : list npfloat
}.

(** [filteringEffect(self, U0, tau0, ..., uIncrement=0.05,
    tauIncrement=1e-15, tempIndex=0)].  The other parameters are read
    only after [Erange] in the body of the loops. *)
Definition filteringEffect (U0 tau0 uIncrement tauIncrement : R)
  : res ndarray :=
  us <- arange (1 / 10) U0 uIncrement ;;
  st <- foldM (fun st U =>
          let st := mksweep (sweep_n st) (sweep_m st + 1) (sMatrix st) in
          taus <- arange tauIncrement tau0 tauIncrement ;;
          foldM (fun st tau =>
                   s <- filtering_cell U tau ;;
                   Ok (mksweep (sweep_n st + 1) (sweep_m st)
                               (sMatrix st ++ [s])))
                taus st)
        us (mksweep 0 0 []) ;;
  reshape (sMatrix st) (sweep_n st) (sweep_m st).

End thermoelectricProperties.

(** ** The energy grid and the selection of the Fermi level in binary64

    [np.linspace], [energyRange] and the second half of
    [fermiLevelSelfConsistent] once more, on the IEEE double precision
    floats of [SpecFloat] (53 bits of precision, round to nearest even):
    here every operation rounds, overflows and keeps the sign of zero as
    numpy's does. *)

Module Binary64.

Import SpecFloat.

Definition prec : Z := 53.
Definition emax : Z := 1024.

Definition float64 : Type := spec_float.

Definition add : float64 -> float64 -> float64 := SFadd prec emax.
Definition sub : float64 -> float64 -> float64 := SFsub prec emax.
Definition mul : float64 -> float64 -> float64 := SFmul prec emax.
Definition div : float64 -> float64 -> float64 := SFdiv prec emax.

(** The float of a count or of an index of [np.arange(0, num)]. *)
Definition of_nat (n : nat) : float64 :=
  binary_normalize prec emax (Z.of_nat n) 0 false.


(** The attributes that [energyRange] reads. *)
Record self : Type := mkself {
  energyMin : float64;
  energyMax : float64;
  numEnergySampling : Z
}.

(** [step = (stop - start) / div] with [div = num - 1]. *)
Definition linspace_step (start stop : float64) (num : nat) : float64 :=
  div (sub stop start) (of_nat (num - 1)).

(** One entry of [np.linspace(start, stop, num)] on two scalars:
    [y = arange(0, num) * step + start], or [arange(0, num) / div * delta
    + start] when the step is zero, and the last entry overwritten by
    [stop]. *)
Definition linspace_val (start stop : float64) (num i : nat) : float64 :=
  let delta := sub stop start in
  let d := (num - 1)%nat in
  let y := of_nat i in
  let y :=
    if (0 <? d)%nat then
      let step := linspace_step start stop num in
      if SFeqb step (S754_zero false)
      then mul (div y (of_nat d)) delta
      else mul y step
    else mul y delta in
  let y := add y start in
  if ((1 <? num)%nat && (i =? num - 1)%nat)%bool then stop else y.

(** [np.linspace]: a negative [num] raises [ValueError]. *)
Definition linspace (start stop : float64) (num : Z) : res (list float64) :=
  if (num <? 0)%Z then Raise ValueError
  else
    let n := Z.to_nat num in
    Ok (map (linspace_val start stop n) (seq 0 n)).

(** [energyRange(self)]: the grid as the only row of an array. *)
Definition energyRange (s : self) : res (list (list float64)) :=
  grid <- linspace (energyMin s) (energyMax s) (numEnergySampling s) ;;
  Ok [grid].

(** The second half of [fermiLevelSelfConsistent], from the tables [fermi]
    and [result_array] that the loops have filled:
    [diff = np.tile(np.transpose(carrierConcentration), (1, 4000))
            - abs(result_array)],
    [min_idx = np.argmin(np.abs(diff), axis=1)], and [Ef] and [n] read in
    the tables at [min_idx].  A table has one row per temperature, and
    [carrierConcentration], of shape [(1, rows)], gives the target of each
    temperature; an axis without candidates raises [ValueError]. *)
Record table : Type := mktable {
  rows : nat;
  cols : nat;
  cell : nat -> nat -> float64
}.

(** [np.abs], [np.isnan] and the comparison [a >= b]. *)
Definition abs : float64 -> float64 := SFabs.

Definition is_nan (x : float64) : bool :=
  match x with
  | S754_nan => true
  | _ => false
  end.

Definition ge (a b : float64) : bool := SFleb b a.

(** One entry of [np.abs(diff)]. *)
Definition distance (c n : float64) : float64 := abs (sub c (abs n)).

(** The scan of [np.argmin], as in [np.argmin_loop]. *)
Fixpoint argmin_loop (f : nat -> float64) (i rem min_ind : nat) : nat :=
  match rem with
  | O => min_ind
  | S r =>
      if negb (ge (f i) (f min_ind)) then
        if is_nan (f i) then i else argmin_loop f (S i) r i
      else argmin_loop f (S i) r min_ind
  end.

Definition argmin (f : nat -> float64) (n : nat) : nat :=
  if is_nan (f 0%nat) then 0%nat else argmin_loop f 1 (n - 1) 0.

Definition selection (carrierConcentration : nat -> float64)
           (fermi result_array : table)
  : res (list float64 * list float64) :=
  if (cols result_array =? 0)%nat then Raise ValueError
  else
    let min_idx k :=
      argmin (fun i => distance (carrierConcentration k)
                                (cell result_array k i))
             (cols result_array) in
    Ok (map (fun k => cell fermi k (min_idx k)) (seq 0 (rows result_array)),
        map (fun k => cell result_array k (min_idx k))
            (seq 0 (rows result_array))).

(** [m] is the index [np.argmin] selects among [d 0 .. d (K-1)]: the first
    [nan] if there is one, and else the first index of the least value. *)
Definition first_minimum (d : nat -> float64) (K m : nat) : Prop :=
  (m < K)%nat /\
  ((is_nan (d m) = true /\ forall i, (i < m)%nat -> is_nan (d i) = false) \/
   ((forall i, (i < K)%nat -> SFleb (d m) (d i) = true) /\
    (forall i, (i < m)%nat -> SFltb (d m) (d i) = true))).

(** The place of a float that is not [nan] in the order of the IEEE
    comparisons, as a triple of integers ordered lexicographically: the
    sign class, then the exponent and the mantissa, both negated for a
    negative float.  The two zeros share one place. *)
Definition order_key (x : float64) : Z * Z * Z :=
  match x with
  | S754_infinity true => (-2, 0, 0)
  | S754_finite true m e => (-1, - e, Zneg m)
  | S754_finite false m e => (1, e, Zpos m)
  | S754_infinity false => (2, 0, 0)
  | _ => (0, 0, 0)
  end%Z.

Definition key_compare (a b : Z * Z * Z) : comparison :=
  let '(a1, a2, a3) := a in
  let '(b1, b2, b3) := b in
  match (a1 ?= b1)%Z with
  | Eq => match (a2 ?= b2)%Z with
          | Eq => (a3 ?= b3)%Z
          | c => c
          end
  | c => c
  end.

(** The floats 0.0, 1.0 and the successor of 1.0, [1 + 2^-52]. *)
Definition zero : float64 := S754_zero false.
Definition one : float64 := S754_finite false 4503599627370496 (-52).

(** The grid of the driver script, 1000 samples from 0 to 1 eV, and a grid
    of three samples between 1.0 and its successor. *)
Definition Si : self := mkself zero one 1000.

(** The floats 0.25, 0.5 and [2^60], and the tables of one temperature and
    two candidates, -0.5 eV and 0.5 eV, with the concentrations 0.25 and
    0.5. *)
Definition quarter : float64 := S754_finite false 4503599627370496 (-54).
Definition half : float64 := S754_finite false 4503599627370496 (-53).
Definition two_60 : float64 := S754_finite false 4503599627370496 8.
Definition fermi_two : table :=
  mktable 1 2 (fun _ i => if (i =? 0)%nat then SFopp half else half).
Definition result_two : table :=
  mktable 1 2 (fun _ i => if (i =? 0)%nat then quarter else half).

End Binary64.

(** ** Concrete inputs *)

Module Inputs.

Import thermoelectricProperties.
Open Scope R_scope.

(** The silicon instance of the driver script: an energy grid of 1000
    samples on [0, 1] eV and a relative permittivity of 11.7. *)
Definition Si : self := mkself (Fin 0) (Fin 1) 1000 (Fin (117 / 10)).

(** The same instance with the bounds of the grid exchanged. *)
Definition Si_reversed : self := mkself (Fin 1) (Fin 0) 3 (Fin (117 / 10)).

(** A grid of two energies, 0 and 1 eV, one Fermi level at 0 eV and one
    temperature of 300 K. *)
Definition grid01 : ndarray := row [Fin 0; Fin 1].
Definition Ef0 : ndarray := row [Fin 0].
Definition T300 : ndarray := row [Fin 300].

(** A nonparabolicity of 0.5 per eV, a flat density of states on [grid01],
    and the deformation potentials of the driver script. *)
Definition alpha05 : ndarray := row [Fin (1 / 2)].
Definition flatDoS : ndarray := row [Fin 1; Fin 1].
Definition Dv : npfloat := Fin (294 / 100).
Definition DA : npfloat := Fin (95 / 10).

(** Three lifetimes on a grid of two energies; the first vanishes at the
    first energy, the second is infinite at the second energy. *)
Definition tau_a : ndarray := row [Fin 0; Fin 2].
Definition tau_b : ndarray := row [Fin 4; PInf].
Definition tau_c : ndarray := row [Fin 4; Fin 2].

(** One conduction-band mass, screening length and carrier concentration
    (the numbers of the specification's regression example), and a density
    of states of 1e45 per eV and cubic metre on [grid01]. *)
Definition m_c : ndarray := row [Fin me].
Definition LD9 : ndarray := row [Fin (1 / 10 ^ 9)].
Definition N25 : ndarray := row [Fin (10 ^ 25)].
Definition D45 : ndarray := row [Fin (10 ^ 45); Fin (10 ^ 45)].

(** A group velocity of 1 m/s and an occupation derivative of -1 per eV on
    [grid01]. *)
Definition vg_flat : ndarray := row [Fin 1; Fin 1].
Definition dfdE_flat : ndarray := row [Fin (-1); Fin (-1)].

(** One energy of 1 eV and one temperature of 1 K. *)
Definition E_1eV : ndarray := row [Fin 1].
Definition T_1K : ndarray := row [Fin 1].

(** Two temperatures, 300 K and 400 K. *)
Definition T_two : ndarray := row [Fin 300; Fin 400].

(** A density of states that is negative at the first energy of [grid01],
    and a target of two carriers. *)
Definition DoS_neg : ndarray := row [Fin (-2); Fin 0].
Definition N_two : ndarray := row [Fin 2].

(** A vanishing concentration with its infinite screening length. *)
Definition N_zero : ndarray := row [Fin 0].
Definition LD_inf : ndarray := row [PInf].

End Inputs.

(** ** The formulas of the specification *)

Module Spec.

Import thermoelectricProperties.
Open Scope R_scope.

(** The occupation [f(E) = 1/(exp((E-Ef)/(kB T)) + 1)] and its derivative
    [df/dE = -exp(..)/(1+exp(..))^2/(kB T)] on floats, with the operations
    in the order of the source: the exponent is [(E - Ef) / T / kB], and
    the derivative is [-1 * xi / (1 + xi)^2 / T / kB]. *)
Definition fermi_exp (E Ef T : npfloat) : npfloat :=
  fexp (fdiv (fdiv (fsub E Ef) T) (Fin kB)).
Definition fermi (E Ef T : npfloat) : npfloat :=
  fdiv (Fin 1) (fadd (fermi_exp E Ef T) (Fin 1)).
Definition dfermi (E Ef T : npfloat) : npfloat :=
  fdiv (fdiv (fdiv (fmul (Fin (-1)) (fermi_exp E Ef T))
                   (fsqr (fadd (Fin 1) (fermi_exp E Ef T))))
             T)
       (Fin kB).

(** The occupation on real numbers. *)
Definition occupation (e ef t : R) : R :=
  1 / (exp ((e - ef) / (kB * t)) + 1).

(** The nonparabolic correction factor of the acoustic-phonon lifetime,
    [(1 - (aE/(1+2aE))(1 - Dv/DA))^2 - (8/3)(aE)(1+aE)/(1+2aE)^2 (Dv/DA)],
    at one energy [E] and one nonparabolicity [a]. *)
Definition correction (a E Dv DA : npfloat) : npfloat :=
  let aE := fmul a E in
  let one_2aE := fadd (Fin 1) (fmul (fmul (Fin 2) a) E) in
  fsub
    (fsqr (fsub (Fin 1)
                (fmul (fdiv aE one_2aE) (fsub (Fin 1) (fdiv Dv DA)))))
    (fmul (fdiv (fmul (fmul (Fin (8 / 3)) aE) (fadd (Fin 1) aE))
                (fsqr one_2aE))
          (fdiv Dv DA)).

(** *** Transport coefficients at one temperature index

    [E] and [DoS] are indexed by the energy, [vg], [dfdE] and [tau] by the
    temperature and the energy, [Ef] and [T] by the temperature; [N] is the
    number of energies. *)

(** The trapezoidal rule [sum (x(k+1) - x(k)) (y(k+1) + y(k)) / 2]. *)
Definition integral (y x : nat -> npfloat) (N : nat) : npfloat :=
  fsum (fun k => fdiv (fmul (fsub (x (S k)) (x k)) (fadd (y (S k)) (y k)))
                      (Fin 2))
       (N - 1).

(** The same rule on real numbers. *)
Fixpoint rsum (f : nat -> R) (n : nat) : R :=
  match n with
  | O => 0
  | S k => rsum f k + f k
  end.

Definition integral_R (y x : nat -> R) (N : nat) : R :=
  rsum (fun k => (x (S k) - x k) * (y (S k) + y k) / 2) (N - 1).

(** The carrier concentration [int DoS(E) f(E) dE] of a Fermi level [Ef] at
    the temperature [T], on a grid [E] of [N] energies. *)
Definition carriers (E DoS : nat -> npfloat) (N : nat) (Ef T : npfloat)
  : npfloat :=
  integral (fun i => fmul (DoS i) (fermi (E i) Ef T)) E N.

(** The [m]-th of the 4000 equally spaced Fermi levels between
    [ef - 0.2] and [ef + 0.2], on real numbers. *)
Definition candidate (ef : R) (m : nat) : R :=
  ef - 2 / 10 + INR m * (4 / 10 / 3999).

(** [m] is the index [np.argmin] selects among [d 0 .. d (K-1)]: the first
    [nan] if there is one, and else the first index of the least value. *)
Definition first_minimum (d : nat -> npfloat) (K m : nat) : Prop :=
  (m < K)%nat /\
  ((isnan (d m) = true /\ forall i, (i < m)%nat -> isnan (d i) = false) \/
   ((forall i, (i < K)%nat -> fle (d m) (d i) = true) /\
    (forall i, (i < m)%nat -> flt (d m) (d i) = true))).

Section Transport.

Variables E DoS : nat -> npfloat.
Variables vg dfdE tau : nat -> nat -> npfloat.
Variables Ef T : nat -> npfloat.
Variable N : nat.
Variable j : nat.

Definition X (i : nat) : npfloat := fmul (fmul (DoS i) (fsqr (vg j i))) (dfdE j i).
Definition Y (i : nat) : npfloat := fmul (fsub (E i) (Ef j)) (X i).
Definition Z (i : nat) : npfloat := fmul (fsub (E i) (Ef j)) (Y i).

Definition int_X : npfloat := integral (fun i => fmul (X i) (tau j i)) E N.
Definition int_Y : npfloat := integral (fun i => fmul (Y i) (tau j i)) E N.
Definition int_Z : npfloat := integral (fun i => fmul (Z i) (tau j i)) E N.
Definition int_XE : npfloat :=
  integral (fun i => fmul (fmul (X i) (tau j i)) (E i)) E N.
Definition int_XE2 : npfloat :=
  integral (fun i => fmul (fmul (X i) (tau j i)) (fsqr (E i))) E N.

(** [Sigma = -(1/3) e int(X tau)] *)
Definition Sigma : npfloat := fmul (Fin (- (1 / 3) * e2C)) int_X.

(** [S = - int(Y tau) / int(X tau) / T] *)
Definition Seebeck : npfloat := fdiv (fdiv (fopp int_Y) int_X) (T j).

(** [PF = Sigma S^2] *)
Definition PF : npfloat := fmul Sigma (fsqr Seebeck).

(** [ke = -(1/(3T)) e (int(Z tau) - int(Y tau)^2 / int(X tau))] *)
Definition ke : npfloat :=
  fmul (fmul (fopp (fdiv (Fin 1) (fmul (Fin 3) (T j)))) (Fin e2C))
       (fsub int_Z (fdiv (fsqr int_Y) int_X)).

(** [delta1 = int(X tau E) / int(X tau)], [delta2 = int(X tau E^2) / int(X tau)] *)
Definition delta_1 : npfloat := fdiv int_XE int_X.
Definition delta_2 : npfloat := fdiv int_XE2 int_X.

(** [Lorenz = (delta2 - delta1^2) / T^2] *)
Definition Lorenz : npfloat :=
  fdiv (fsub delta_2 (fsqr delta_1)) (fsqr (T j)).

End Transport.

End Spec.

(** ** Proof automation *)

Create Rewrite HintDb nd.
Create Rewrite HintDb fin.
Create Rewrite HintDb sgn.

(** Evaluate an array expression whose shapes are known. *)
Ltac nd_eval :=
  repeat (progress
            (unfold lift1, lift2, bop, sc, scalar, transpose, amap, np.sqr,
               np.power, bind;
             cbn [nrows ncols item fst snd];
             autorewrite with nd; cbn beta iota)).

(** ** Entries of the combined lifetime *)

Module Elementwise.

(** What [matthiessen] computes at one position from the lifetimes
    [vals] that its arguments hold there: [sum] adds the inverse rates to
    the integer zero from left to right, and an infinite result is
    replaced by zero. *)
Definition inv_sum_from (acc : npfloat) (vals : list npfloat) : npfloat :=
  fold_left (fun acc v => fadd acc (fdiv (Fin 1) v)) vals acc.

Definition inv_sum (vals : list npfloat) : npfloat :=
  inv_sum_from (Fin 0) vals.

Definition matthiessen_entry (vals : list npfloat) : npfloat :=
  let t := fdiv (Fin 1) (inv_sum vals) in
  if isinf t then Fin 0 else t.

(** The inverse rate [1. / arg] of one lifetime. *)
Definition inv_rate (v : npfloat) : npfloat := fdiv (Fin 1) v.

(** The entries of a list of arrays at one position. *)
Definition entries (args : list ndarray) (i j : nat) : list npfloat :=
  map (fun a => item a i j) args.

(** All the arrays have the shape [(r, c)]. *)
Definition same_shape (r c : nat) (args : list ndarray) : Prop :=
  Forall (fun a => nrows a = r /\ ncols a = c) args.

End Elementwise.

Export Elementwise.

(** ** Arguments given as one row *)

(** The entries an array of one row or of [n] rows contributes to an
    operation with an array of [n] rows: numpy repeats a single row. *)
Definition over_rows (a : ndarray) (j i : nat) : npfloat :=
  item a (Nd.bidx (nrows a) j) i.

(** * Verification *)

Import thermoelectricProperties.

(** ** Facts on floats *)

Section FloatFacts.

Open Scope R_scope.

Lemma sgn_pos x : 0 < x -> sgn x = Gt.
Proof.
  intros H. unfold sgn. destruct (total_order_T x 0) as [[H1 | H1] | H1];
    try reflexivity; lra.
Qed.

Lemma sgn_neg x : x < 0 -> sgn x = Lt.
Proof.
  intros H. unfold sgn. destruct (total_order_T x 0) as [[H1 | H1] | H1];
    try reflexivity; lra.
Qed.

Lemma sgn_zero : sgn 0 = Eq.
Proof.
  unfold sgn. destruct (total_order_T 0 0) as [[H1 | H1] | H1];
    try reflexivity; lra.
Qed.

Lemma sgn_Eq_inv x : sgn x = Eq -> x = 0.
Proof.
  unfold sgn. destruct (total_order_T x 0) as [[H1 | H1] | H1];
    intros H; try discriminate; assumption.
Qed.

Lemma sgn_Gt_inv x : sgn x = Gt -> 0 < x.
Proof.
  unfold sgn. destruct (total_order_T x 0) as [[H1 | H1] | H1];
    intros H; try discriminate; lra.
Qed.

Lemma sgn_Lt_inv x : sgn x = Lt -> x < 0.
Proof.
  unfold sgn. destruct (total_order_T x 0) as [[H1 | H1] | H1];
    intros H; try discriminate; lra.
Qed.

Lemma fdiv_fin x y : y <> 0 -> fdiv (Fin x) (Fin y) = Fin (x / y).
Proof.
  intros H. simpl. destruct (sgn y) eqn:E; try reflexivity.
  apply sgn_Eq_inv in E. contradiction.
Qed.

Lemma fdiv_zero_pos x : 0 < x -> fdiv (Fin x) (Fin 0) = PInf.
Proof. intros H. simpl. rewrite sgn_zero, (sgn_pos H). reflexivity. Qed.

Lemma feq_fin_false x y : x <> y -> feq (Fin x) (Fin y) = false.
Proof.
  intros H. simpl. destruct (Req_dec_T x y); [contradiction | reflexivity].
Qed.

Lemma feq_fin_true x : feq (Fin x) (Fin x) = true.
Proof. simpl. destruct (Req_dec_T x x); [reflexivity | contradiction]. Qed.

Lemma flt_fin_true x y : x < y -> flt (Fin x) (Fin y) = true.
Proof. intros H. simpl. destruct (Rlt_dec x y); [reflexivity | lra]. Qed.

Lemma flt_fin_false x y : y <= x -> flt (Fin x) (Fin y) = false.
Proof. intros H. simpl. destruct (Rlt_dec x y); [lra | reflexivity]. Qed.

Lemma fle_fin_true x y : x <= y -> fle (Fin x) (Fin y) = true.
Proof.
  intros H. unfold fle. simpl.
  destruct (Rlt_dec x y), (Req_dec_T x y); try reflexivity. lra.
Qed.

Lemma fadd_fin x y : fadd (Fin x) (Fin y) = Fin (x + y).
Proof. reflexivity. Qed.

Lemma fsub_fin x y : fsub (Fin x) (Fin y) = Fin (x - y).
Proof. reflexivity. Qed.

Lemma fmul_fin x y : fmul (Fin x) (Fin y) = Fin (x * y).
Proof. reflexivity. Qed.

Lemma fsqr_fin x : fsqr (Fin x) = Fin (x * x).
Proof. reflexivity. Qed.

Lemma fopp_fin x : fopp (Fin x) = Fin (- x).
Proof. reflexivity. Qed.

Lemma fabs_fin x : fabs (Fin x) = Fin (Rabs x).
Proof. reflexivity. Qed.

Lemma ln_2_bounds : 0 < ln 2 < 1.
Proof.
  split.
  - rewrite <- ln_1. apply ln_increasing; lra.
  - apply Rlt_le_trans with (ln (exp 1)); [| rewrite ln_exp; lra].
    apply ln_increasing; [lra |]. pose proof (exp_ineq1 1). lra.
Qed.

Lemma fexp_fin x :
  exp_underflow < x < exp_overflow -> fexp (Fin x) = Fin (exp x).
Proof.
  intros [Hlo Hhi]. cbn [fexp].
  destruct (Rle_dec exp_overflow x); [lra |].
  destruct (Rle_dec x exp_underflow); [lra | reflexivity].
Qed.

Lemma fexp_overflow x : exp_overflow <= x -> fexp (Fin x) = PInf.
Proof.
  intros H. cbn [fexp]. destruct (Rle_dec exp_overflow x); [reflexivity |].
  contradiction.
Qed.

Lemma fexp_zero : fexp (Fin 0) = Fin 1.
Proof.
  pose proof ln_2_bounds. rewrite fexp_fin, exp_0; [reflexivity |].
  unfold exp_underflow, exp_overflow. lra.
Qed.

(** The value of [np.exp] on a finite number: [inf], zero, or a positive
    number. *)
Lemma fexp_cases x :
  fexp (Fin x) = PInf \/ fexp (Fin x) = Fin 0 \/
  exists y, fexp (Fin x) = Fin y /\ 0 < y.
Proof.
  cbn [fexp]. destruct (Rle_dec exp_overflow x); [left; reflexivity |].
  destruct (Rle_dec x exp_underflow); [right; left; reflexivity |].
  right. right. exists (exp x). split; [reflexivity | apply exp_pos].
Qed.

Lemma fadd_comm a b : fadd a b = fadd b a.
Proof. destruct a, b; simpl; try reflexivity. f_equal. lra. Qed.

Lemma fadd_zero_l a : fadd (Fin 0) a = a.
Proof. destruct a; simpl; try reflexivity. f_equal. lra. Qed.

End FloatFacts.

#[local] Hint Rewrite fadd_fin fsub_fin fmul_fin fsqr_fin fopp_fin fabs_fin
  : fin.

(** Evaluate float operations on finite operands; [tac] proves that the
    divisors are not zero. *)
Ltac fin_eval tac :=
  repeat (progress (autorewrite with fin; rewrite ?fdiv_fin by tac)).

(** ** The energy grid *)

Section EnergyGrid.

Open Scope R_scope.

(** With finite endpoints the entries of [np.linspace] are
    [start + i * (stop - start) / (num - 1)], whichever way numpy
    multiplies. *)
Lemma linspace_val_fin lo hi n b i :
  (2 <= n)%nat -> (i < n)%nat ->
  linspace_val (Fin lo) (Fin hi) n b i
  = Fin (lo + INR i * ((hi - lo) / INR (n - 1))).
Proof.
  intros Hn Hi. unfold linspace_val.
  assert (Hd : 0 < INR (n - 1)) by (apply lt_0_INR; lia).
  assert (Hd' : INR (n - 1) <> 0) by lra.
  replace (0 <? n - 1)%nat with true by (symmetry; apply Nat.ltb_lt; lia).
  replace (1 <? n)%nat with true by (symmetry; apply Nat.ltb_lt; lia).
  simpl andb. destruct (Nat.eqb_spec i (n - 1)) as [-> | Hne].
  - f_equal. field. exact Hd'.
  - destruct b; simpl fsub; rewrite !fdiv_fin by exact Hd'; simpl;
      f_equal; field; exact Hd'.
Qed.

End EnergyGrid.

Section EnergyGridClaims.

Open Scope R_scope.

(** C10 fails as stated: with the bounds exchanged ([min = 1], [max = 0],
    three samples) [energyRange] raises nothing and returns the
    decreasing grid [1, 0.5, 0]. *)
Lemma energyRange_reversed_bounds_succeed :
  exists g, energyRange Inputs.Si_reversed = Ok g /\
            item g 0 0 = Fin 1 /\ item g 0 1 = Fin (1 / 2) /\
            item g 0 2 = Fin 0.
Proof.
  eexists. split; [reflexivity |].
  cbn [item Inputs.Si_reversed energyMin energyMax numEnergySampling Z.to_nat
       Pos.to_nat Pos.iter_op Nat.add].
  rewrite !linspace_val_fin by lia.
  repeat split; f_equal; simpl; lra.
Qed.

(** C10, as the code has it: [energyRange] checks neither the order of the
    bounds nor a minimum count.  It raises exactly when the count is
    negative, and then numpy's [ValueError]; for every other count it
    returns one row of that many values, whatever the bounds are. *)
Theorem energyRange_raises_iff_negative_count (s : self) :
  (if (numEnergySampling s <? 0)%Z
   then energyRange s = Raise ValueError
   else exists g, energyRange s = Ok g /\ nrows g = 1%nat /\
                  ncols g = Z.to_nat (numEnergySampling s)).
Proof.
  unfold energyRange, linspace.
  destruct (numEnergySampling s <? 0)%Z; [reflexivity |].
  eexists. split; [reflexivity |]. split; reflexivity.
Qed.

End EnergyGridClaims.

(** ** The energy grid in binary64 *)

Section EnergyGridBinary64.

Import SpecFloat.
Import Binary64.






Lemma nth_map_seq_float (g : nat -> float64) n i d :
  (i < n)%nat -> nth i (map g (seq 0 n)) d = g i.
Proof.
  intros Hi.
  rewrite (nth_indep _ d (g 0%nat)) by (rewrite length_map, length_seq; exact Hi).
  rewrite map_nth. rewrite seq_nth by exact Hi. reflexivity.
Qed.



End EnergyGridBinary64.


(** ** Facts on broadcasting *)

Section Broadcasting.

Lemma bdim_refl n : bdim n n = Some n.
Proof. unfold bdim. rewrite Nat.eqb_refl. reflexivity. Qed.

Lemma bdim_1_l n : bdim 1 n = Some n.
Proof.
  unfold bdim. destruct (Nat.eqb_spec 1 n) as [<- | H]; reflexivity.
Qed.

Lemma bdim_1_r n : bdim n 1 = Some n.
Proof.
  unfold bdim. destruct (Nat.eqb_spec n 1) as [-> | H]; reflexivity.
Qed.

Lemma bdim_comm n m : bdim n m = bdim m n.
Proof.
  unfold bdim.
  destruct (Nat.eqb_spec n m), (Nat.eqb_spec m n), (Nat.eqb_spec n 1),
    (Nat.eqb_spec m 1); subst; try reflexivity; congruence.
Qed.

Lemma bidx_lt n i : (i < n)%nat -> bidx n i = i.
Proof.
  intros H. unfold bidx. destruct (Nat.eqb_spec n 1); [lia | reflexivity].
Qed.

Lemma bidx_1 i : bidx 1 i = 0%nat.
Proof. reflexivity. Qed.

Lemma bidx_idem n i : bidx n (bidx n i) = bidx n i.
Proof. unfold bidx. destruct (n =? 1)%nat; reflexivity. Qed.

Lemma bop_ok f a b r c :
  bdim (nrows a) (nrows b) = Some r -> bdim (ncols a) (ncols b) = Some c ->
  bop f a b
  = Ok (mkarr r c (fun i j =>
          f (item a (bidx (nrows a) i) (bidx (ncols a) j))
            (item b (bidx (nrows b) i) (bidx (ncols b) j)))).
Proof. intros Hr Hc. unfold bop. rewrite Hr, Hc. reflexivity. Qed.

Lemma bdim_idx n m r i :
  bdim n m = Some r -> (i < r)%nat -> (bidx n i < n)%nat /\ (bidx m i < m)%nat.
Proof.
  unfold bdim, bidx. intros H Hi.
  destruct (Nat.eqb_spec n m), (Nat.eqb_spec n 1), (Nat.eqb_spec m 1);
    inversion H; subst; lia.
Qed.

(** *** Evaluation of array expressions, one operator at a time *)

Lemma evals_Ok a r c :
  nrows a = r -> ncols a = c -> evals (Ok a) r c (item a).
Proof. intros <- <-. exists a. repeat split. Qed.

Lemma evals_sc v : evals (sc v) 1 1 (fun _ _ => v).
Proof. eexists. repeat split. Qed.

Lemma evals_ext x r c f g :
  evals x r c f ->
  (forall i j, (i < r)%nat -> (j < c)%nat -> f i j = g i j) ->
  evals x r c g.
Proof.
  intros (a & -> & Hr & Hc & Hf) Hfg. exists a. repeat split; try assumption.
  intros i j Hi Hj. rewrite Hf by assumption. apply Hfg; assumption.
Qed.

Lemma evals_lift2 op x y r1 c1 f1 r2 c2 f2 r c :
  evals x r1 c1 f1 -> evals y r2 c2 f2 ->
  bdim r1 r2 = Some r -> bdim c1 c2 = Some c ->
  evals (lift2 op x y) r c
        (fun i j => op (f1 (bidx r1 i) (bidx c1 j))
                       (f2 (bidx r2 i) (bidx c2 j))).
Proof.
  intros (a & -> & Hra & Hca & Hfa) (b & -> & Hrb & Hcb & Hfb) Hr Hc.
  cbn [lift2 bind]. unfold bop. rewrite Hra, Hca, Hrb, Hcb, Hr, Hc.
  eexists. split; [reflexivity |]. cbn [nrows ncols item].
  repeat split. intros i j Hi Hj.
  destruct (@bdim_idx _ _ _ i Hr Hi), (@bdim_idx _ _ _ j Hc Hj).
  rewrite Hfa, Hfb by assumption. reflexivity.
Qed.

Lemma evals_lift1 op x r c f :
  evals x r c f -> evals (lift1 op x) r c (fun i j => op (f i j)).
Proof.
  intros (a & -> & Hr & Hc & Hf). cbn [lift1 bind]. eexists.
  split; [reflexivity |]. cbn [amap nrows ncols item]. repeat split;
    try assumption.
  intros i j Hi Hj. rewrite Hf by assumption. reflexivity.
Qed.

Lemma evals_transpose a r c f :
  evals (Ok a) r c f -> evals (Ok (transpose a)) c r (fun i j => f j i).
Proof.
  intros (a' & Ha & Hr & Hc & Hf). injection Ha as <-.
  eexists. split; [reflexivity |]. cbn [transpose nrows ncols item].
  repeat split; try assumption. intros i j Hi Hj. apply Hf; assumption.
Qed.

Lemma evals_bop op a b r c f :
  evals (lift2 op (Ok a) (Ok b)) r c f -> evals (bop op a b) r c f.
Proof. intros H. exact H. Qed.

End Broadcasting.

(** Shapes of a broadcast. *)
Ltac bd :=
  first [apply bdim_refl | apply bdim_1_l | apply bdim_1_r | eassumption].

(** Evaluate an array expression operator by operator; the arrays it reads
    are described by hypotheses of the form [evals (Ok a) r c f]. *)
Ltac ev :=
  lazymatch goal with
  | |- evals (lift2 _ _ _) _ _ _ => eapply evals_lift2; [ev | ev | bd | bd]
  | |- evals (lift1 _ _) _ _ _ => eapply evals_lift1; ev
  | |- evals (np.sqr _) _ _ _ => unfold np.sqr; ev
  | |- evals (np.power _ _) _ _ _ => unfold np.power; ev
  | |- evals (sc _) _ _ _ => apply evals_sc
  | |- evals (Ok (transpose _)) _ _ _ => eapply evals_transpose; ev
  | |- evals (Ok _) _ _ _ => eassumption
  | |- evals (bop _ _ _) _ _ _ => apply evals_bop; ev
  | |- evals _ _ _ _ => eassumption
  end.

(** Simplify the indices of one entry. *)
Ltac idx :=
  cbn beta; autorewrite with nd; rewrite ?bidx_lt by assumption.

#[local] Hint Rewrite bdim_refl bdim_1_l bdim_1_r bidx_idem bidx_1 : nd.

(** *** Reading an evaluated array *)

Section Evaluation.

Open Scope R_scope.

Lemma bdim_row_or r n :
  r = 1%nat \/ r = n -> bdim r n = Some n /\ bdim n r = Some n.
Proof.
  intros [-> | ->]; split;
    first [apply bdim_refl | apply bdim_1_l | apply bdim_1_r].
Qed.

Lemma evals_inv x r c f :
  evals x r c f -> exists a, x = Ok a /\ evals (Ok a) r c f.
Proof.
  intros (a & -> & H). exists a. split; [reflexivity |].
  exists a. split; [reflexivity | exact H].
Qed.

Lemma row0_evals a n f :
  evals (Ok a) 1 n f ->
  exists b, row0 a = Ok b /\ nrows b = 1%nat /\ ncols b = n /\
            forall j, (j < n)%nat -> item b 0 j = f 0%nat j.
Proof.
  intros (a' & Ha & Hr & Hc & Hf). injection Ha as <-.
  unfold row0. rewrite Hr. cbn [Nat.eqb]. eexists. split; [reflexivity |].
  cbn [nrows ncols item]. repeat split; [assumption |].
  intros j Hj. apply Hf; [lia | assumption].
Qed.

Lemma evals_shape a r c f :
  evals (Ok a) r c f -> nrows a = r /\ ncols a = c.
Proof.
  intros (a' & Ha & Hr & Hc & _). injection Ha as <-. split; assumption.
Qed.

Lemma evals_item a r c f i j :
  evals (Ok a) r c f -> (i < r)%nat -> (j < c)%nat -> item a i j = f i j.
Proof.
  intros (a' & Ha & _ & _ & Hf). injection Ha as <-. apply Hf.
Qed.

End Evaluation.

(** Resolve the broadcast indices that are known to be in range. *)
Ltac idxs :=
  cbn beta; autorewrite with nd;
  repeat match goal with
         | |- context [bidx ?n ?i] => rewrite (@bidx_lt n i) by assumption
         end.

(** ** Acoustic phonons *)

Section AcousticPhonon.

Import Spec.
Open Scope R_scope.

Lemma float_overflow_gt_1 : 1 < float_overflow.
Proof.
  unfold float_overflow.
  assert (H53 : 1 <= 2 ^ 53) by (apply pow_R1_Rle; lra).
  assert (Hi : 0 < / 2 ^ 53 <= 1).
  { split; [apply Rinv_0_lt_compat; lra |].
    rewrite <- Rinv_1. apply Rinv_le_contravar; lra. }
  assert (H1022 : 1 <= 2 ^ 1022) by (apply pow_R1_Rle; lra).
  change 1023%nat with (1 + 1022)%nat. rewrite pow_add, pow_1. nra.
Qed.

(** The square of a Python float that does not overflow. *)
Lemma pysqr_ok vs :
  (forall v, vs = Fin v -> v * v < float_overflow) ->
  pysqr vs = sc (fsqr vs).
Proof.
  intros H. destruct vs as [v | | |]; try reflexivity.
  cbn [pysqr]. destruct (Rle_dec float_overflow (v * v)) as [Hle | _].
  - specialize (H v eq_refl). lra.
  - reflexivity.
Qed.

(** An operand that raises after its left neighbour has been computed. *)
Lemma lift2_raise_r op x r c f e :
  evals x r c f -> lift2 op x (Raise e) = Raise e.
Proof. intros (a & -> & _). reflexivity. Qed.

(** C8, with the preconditions of the code.  For a grid and a density of
    states of [N] energies and for nonparabolicities and temperatures of
    [nT] entries, a deformation potential [DA] that is not zero and a sound
    velocity whose square does not overflow, [tau_p] returns the pair of
    the parabolic and the nonparabolic lifetime, both of shape [(nT, N)],
    and each nonparabolic entry is the parabolic entry divided by the
    correction factor at that energy. *)
Theorem tau_p_nonparabolic_correction
        (energyRange alpha T D : ndarray) (Dv DA vs rho : npfloat) :
  nrows energyRange = 1%nat -> nrows alpha = 1%nat -> nrows T = 1%nat ->
  nrows D = 1%nat -> ncols alpha = ncols T -> ncols D = ncols energyRange ->
  feq DA (Fin 0) = false ->
  (forall v, vs = Fin v -> v * v < float_overflow) ->
  exists tau taup,
    tau_p energyRange alpha Dv DA T vs D rho = Ok (tau, taup) /\
    nrows tau = ncols T /\ ncols tau = ncols energyRange /\
    nrows taup = ncols T /\ ncols taup = ncols energyRange /\
    forall j i, (j < ncols T)%nat -> (i < ncols energyRange)%nat ->
      item taup j i
      = fdiv (item tau j i)
             (correction (item alpha 0 j) (item energyRange 0 i) Dv DA).
Proof.
  intros HrE HrA HrT HrD HcA HcD HDA Hvs.
  pose proof (@evals_Ok energyRange _ _ HrE eq_refl) as HE.
  pose proof (@evals_Ok alpha _ _ HrA HcA) as HA.
  pose proof (@evals_Ok T _ _ HrT eq_refl) as HT.
  pose proof (@evals_Ok D _ _ HrD HcD) as HD.
  assert (H1 : evals (nonparabolic_term energyRange alpha Dv DA)
                     (ncols T) (ncols energyRange)
                     (fun j i => correction (item alpha 0 j)
                                            (item energyRange 0 i) Dv DA)).
  { unfold nonparabolic_term, pydiv. rewrite HDA.
    eapply evals_ext; [ev |]. intros j i Hj Hi. idx. reflexivity. }
  destruct H1 as (np & Hnp & Hnpr & Hnpc & Hnpf).
  unfold tau_p. rewrite Hnp. cbn [bind]. rewrite (pysqr_ok Hvs).
  assert (H2 : exists f, evals
            (sc rho * sc (fsqr vs) * sc (Fin hBar) / sc (Fin PI)
             / sc (Fin kB) / Ok (transpose T) / sc DA / sc DA
             * sc (Fin (10 ^ 9)) / sc (Fin e2C) / Ok D)%nd
            (ncols T) (ncols energyRange) f)
    by (eexists; ev).
  destruct H2 as (f & tau & Htau & Htr & Htc & Htf).
  rewrite Htau. cbn [bind].
  assert (H3 : evals (bop fdiv tau np) (ncols T) (ncols energyRange)
                     (fun j i => fdiv (item tau j i) (item np j i))).
  { pose proof (@evals_Ok tau _ _ Htr Htc). pose proof (@evals_Ok np _ _ Hnpr Hnpc).
    eapply evals_ext; [ev |]. intros j i Hj Hi. idx. reflexivity. }
  destruct H3 as (taup & Htaup & Hpr & Hpc & Hpf).
  rewrite Htaup. cbn [bind]. exists tau, taup.
  repeat split; try assumption.
  intros j i Hj Hi. rewrite Hpf, Hnpf by assumption. reflexivity.
Qed.

(** With [DA = 0] the first division [Dv / DA], a division of Python
    floats, raises before any lifetime is computed. *)
Lemma tau_p_zero_DA (energyRange alpha T D : ndarray) (Dv vs rho : npfloat) :
  nrows energyRange = 1%nat -> nrows alpha = 1%nat ->
  tau_p energyRange alpha Dv (Fin 0) T vs D rho = Raise ZeroDivisionError.
Proof.
  intros HrE HrA.
  pose proof (@evals_Ok energyRange _ _ HrE eq_refl) as HE.
  pose proof (@evals_Ok alpha _ _ HrA eq_refl) as HA.
  unfold tau_p, nonparabolic_term, pydiv. rewrite feq_fin_true.
  assert (H1 : exists f,
             evals (Ok (transpose alpha) * Ok energyRange
                    / (sc (Fin 1)
                       + sc (Fin 2) * Ok (transpose alpha) * Ok energyRange))%nd
                   (ncols alpha) (ncols energyRange) f) by (eexists; ev).
  destruct H1 as (f & H1).
  rewrite (@lift2_raise_r fsub (sc (Fin 1)) 1 1 (fun _ _ => Fin 1)
             ZeroDivisionError) by apply evals_sc.
  rewrite (lift2_raise_r fmul ZeroDivisionError H1).
  reflexivity.
Qed.

End AcousticPhonon.

(** C8 on a grid of two energies at one temperature, with the deformation
    potentials of the driver script and a sound velocity of 1 m/s. *)
Lemma tau_p_nonparabolic_correction_witness :
  exists tau taup,
    tau_p Inputs.grid01 Inputs.alpha05 Inputs.Dv Inputs.DA Inputs.T300
          (Fin 1) Inputs.flatDoS (Fin 2329) = Ok (tau, taup) /\
    nrows tau = 1%nat /\ ncols tau = 2%nat /\
    nrows taup = 1%nat /\ ncols taup = 2%nat /\
    forall j i, (j < 1)%nat -> (i < 2)%nat ->
      item taup j i
      = fdiv (item tau j i)
             (Spec.correction (item Inputs.alpha05 0 j)
                              (item Inputs.grid01 0 i) Inputs.Dv Inputs.DA).
Proof.
  apply (@tau_p_nonparabolic_correction Inputs.grid01 Inputs.alpha05
           Inputs.T300 Inputs.flatDoS Inputs.Dv Inputs.DA (Fin 1) (Fin 2329));
    try reflexivity.
  - apply feq_fin_false. lra.
  - intros v Hv. injection Hv as <-. pose proof float_overflow_gt_1. lra.
Defined.

(** C8 fails as stated for [DA = 0]: with the inputs above and a vanishing
    acoustic deformation potential, [tau_p] raises [ZeroDivisionError] and
    returns no pair. *)
Lemma tau_p_zero_DA_raises :
  tau_p Inputs.grid01 Inputs.alpha05 Inputs.Dv (Fin 0) Inputs.T300
        (Fin 1) Inputs.flatDoS (Fin 2329) = Raise ZeroDivisionError.
Proof. apply tau_p_zero_DA; reflexivity. Qed.

(** ** Signs and the regrouping of float expressions *)

Section Signs.

Open Scope R_scope.

Lemma sgn_mult x y : sgn (x * y) = sgn_mul (sgn x) (sgn y).
Proof.
  destruct (sgn x) eqn:Hx, (sgn y) eqn:Hy;
    try apply sgn_Eq_inv in Hx; try apply sgn_Eq_inv in Hy;
    try apply sgn_Lt_inv in Hx; try apply sgn_Lt_inv in Hy;
    try apply sgn_Gt_inv in Hx; try apply sgn_Gt_inv in Hy;
    subst; cbn [sgn_mul];
    rewrite ?Rmult_0_l, ?Rmult_0_r; try apply sgn_zero;
    first [ apply sgn_pos; nra | apply sgn_neg; nra ].
Qed.

Lemma sgn_inv x : sgn (/ x) = sgn x.
Proof.
  destruct (sgn x) eqn:Hx.
  - apply sgn_Eq_inv in Hx. subst. rewrite Rinv_0. apply sgn_zero.
  - apply sgn_Lt_inv in Hx. apply sgn_neg, Rinv_lt_0_compat, Hx.
  - apply sgn_Gt_inv in Hx. apply sgn_pos, Rinv_0_lt_compat, Hx.
Qed.

Lemma sgn_div x y : sgn (x / y) = sgn_mul (sgn x) (sgn y).
Proof. unfold Rdiv. rewrite sgn_mult, sgn_inv. reflexivity. Qed.

Lemma sgn_opp x : sgn (- x) = CompOpp (sgn x).
Proof.
  destruct (sgn x) eqn:Hx; cbn [CompOpp].
  - apply sgn_Eq_inv in Hx. subst. rewrite Ropp_0. apply sgn_zero.
  - apply sgn_Lt_inv in Hx. apply sgn_pos. lra.
  - apply sgn_Gt_inv in Hx. apply sgn_neg. lra.
Qed.

Lemma e2C_pos : 0 < e2C.
Proof. unfold e2C. apply Rdiv_lt_0_compat; [lra | apply pow_lt; lra]. Qed.

Lemma sgn_e2C : sgn e2C = Gt.
Proof. apply sgn_pos, e2C_pos. Qed.

Lemma sgn_1 : sgn 1 = Gt.
Proof. apply sgn_pos. lra. Qed.

Lemma sgn_2 : sgn 2 = Gt.
Proof. apply sgn_pos. lra. Qed.

Lemma sgn_3 : sgn 3 = Gt.
Proof. apply sgn_pos. lra. Qed.

Lemma sgn_m1 : sgn (-1) = Lt.
Proof. apply sgn_neg. lra. Qed.

End Signs.

#[local] Hint Rewrite Rplus_0_l Rplus_0_r sgn_mult sgn_div sgn_opp sgn_inv
  sgn_zero sgn_e2C sgn_1 sgn_2 sgn_3 sgn_m1 : sgn.

(** Turn the sign of a variable into an order fact. *)
Ltac sgn_facts :=
  repeat match goal with
         | H : sgn _ = Eq |- _ => apply sgn_Eq_inv in H
         | H : sgn _ = Lt |- _ => apply sgn_Lt_inv in H
         | H : sgn _ = Gt |- _ => apply sgn_Gt_inv in H
         end.

(** Decide an equation between two float expressions by cases on the
    operands and on the signs of the finite ones. *)
Ltac float_step :=
  repeat (progress
            (cbn [fmul fdiv fadd fsub fopp fsqr fsgn inf_of_sign sgn_mul
                  CompOpp isinf isnan];
             autorewrite with sgn;
             repeat match goal with
                    | H : sgn ?x = _ |- context [sgn ?x] => rewrite H
                    end)).

Ltac float_cases :=
  float_step;
  repeat (match goal with
          | |- context [sgn ?e] => is_var e; destruct (sgn e) eqn:?
          end; float_step);
  try reflexivity;
  sgn_facts; subst;
  try (f_equal; first [lra | field; lra | nra]);
  try (exfalso; lra).

Section Regrouping.

Open Scope R_scope.

Lemma fmul_m1 a : fmul (Fin (-1)) a = fopp a.
Proof. destruct a; float_cases. Qed.

(** [-1 * I / 3 * e2C] is [-(1/3) e I]. *)
Lemma Sigma_regroup I :
  fmul (fdiv (fmul (Fin (-1)) I) (Fin 3)) (Fin e2C)
  = fmul (Fin (- (1 / 3) * e2C)) I.
Proof. destruct I; float_cases. Qed.

(** [-1 * B / T / 3 * e2C] is [-(1/(3T)) e B]. *)
Lemma ke_regroup B T :
  fmul (fdiv (fdiv (fmul (Fin (-1)) B) T) (Fin 3)) (Fin e2C)
  = fmul (fmul (fopp (fdiv (Fin 1) (fmul (Fin 3) T))) (Fin e2C)) B.
Proof. destruct B, T; float_cases. Qed.

(** [A / T / T] is [A / T^2]. *)
Lemma Lorenz_regroup A T : fdiv (fdiv A T) T = fdiv A (fsqr T).
Proof. destruct A, T; float_cases. Qed.

End Regrouping.

(** ** The Fermi-Dirac distribution *)

Section FermiDirac.

Import Spec.
Open Scope R_scope.

Lemma kB_pos : 0 < kB.
Proof. unfold kB. apply Rdiv_lt_0_compat; [lra | apply pow_lt; lra]. Qed.

Lemma sgn_kB : sgn kB = Gt.
Proof. apply sgn_pos, kB_pos. Qed.

(** [a / T / kB], as the source divides, is [a / (kB T)]. *)
Lemma exponent_regroup a T :
  fdiv (fdiv a T) (Fin kB) = fdiv a (fmul (Fin kB) T).
Proof.
  pose proof kB_pos as Hk. pose proof sgn_kB as Hs.
  destruct a, T; float_cases.
Qed.

(** The two arrays that [fermiDistribution] returns, entry by entry. *)
Lemma fermiDistribution_entries (energyRange fermiLevel Temp : ndarray) :
  nrows energyRange = 1%nat -> nrows fermiLevel = 1%nat ->
  nrows Temp = 1%nat -> ncols fermiLevel = ncols Temp ->
  exists fermiDirac dfdE,
    fermiDistribution energyRange fermiLevel (Some Temp)
    = Ok (fermiDirac, dfdE) /\
    evals (Ok fermiDirac) (ncols Temp) (ncols energyRange)
          (fun j i => fermi (item energyRange 0 i) (item fermiLevel 0 j)
                            (item Temp 0 j)) /\
    evals (Ok dfdE) (ncols Temp) (ncols energyRange)
          (fun j i => dfermi (item energyRange 0 i) (item fermiLevel 0 j)
                             (item Temp 0 j)).
Proof.
  intros HrE HrF HrT HcF.
  pose proof (@evals_Ok _ _ _ HrE eq_refl) as HE.
  pose proof (@evals_Ok _ _ _ HrF HcF) as HF.
  pose proof (@evals_Ok _ _ _ HrT eq_refl) as HT.
  unfold fermiDistribution.
  assert (Hxi : evals (lift1 fexp
                         ((Ok energyRange - Ok (transpose fermiLevel))
                          / Ok (transpose Temp) / sc (Fin kB))%nd)
                      (ncols Temp) (ncols energyRange)
                      (fun j i => fermi_exp (item energyRange 0 i)
                                            (item fermiLevel 0 j)
                                            (item Temp 0 j))).
  { eapply evals_ext; [ev |]. intros j i Hj Hi. idx.
    reflexivity. }
  destruct Hxi as (xi & -> & Hrx & Hcx & Hfx). cbn [bind].
  pose proof (@evals_Ok _ _ _ Hrx Hcx) as Hxi.
  assert (Hf : evals (sc (Fin 1) / (Ok xi + sc (Fin 1)))%nd
                     (ncols Temp) (ncols energyRange)
                     (fun j i => fermi (item energyRange 0 i)
                                       (item fermiLevel 0 j)
                                       (item Temp 0 j))).
  { eapply evals_ext; [ev |]. intros j i Hj Hi. idx.
    rewrite Hfx by assumption. reflexivity. }
  destruct Hf as (fD & -> & Hf). cbn [bind].
  assert (Hd : evals (sc (Fin (-1)) * Ok xi / sqr (sc (Fin 1) + Ok xi)
                      / Ok (transpose Temp) / sc (Fin kB))%nd
                     (ncols Temp) (ncols energyRange)
                     (fun j i => dfermi (item energyRange 0 i)
                                        (item fermiLevel 0 j)
                                        (item Temp 0 j))).
  { eapply evals_ext; [ev |]. intros j i Hj Hi. idx.
    rewrite Hfx by assumption. reflexivity. }
  destruct Hd as (dfdE & -> & Hd). cbn [bind].
  exists fD, dfdE. split; [reflexivity |].
  split; [exists fD | exists dfdE]; (split; [reflexivity | assumption]).
Qed.

(** Finite operands at a positive temperature: the exponent is a number. *)
Lemma fermi_exp_fin e ef t :
  0 < t -> fermi_exp (Fin e) (Fin ef) (Fin t) = fexp (Fin ((e - ef) / (kB * t))).
Proof.
  intros Ht. pose proof kB_pos. unfold fermi_exp.
  rewrite exponent_regroup, fsub_fin, fmul_fin, fdiv_fin by nra. reflexivity.
Qed.

(** The occupation lies between 0 and 1 and the derivative is not positive,
    unless it is [nan], which is what [np.exp] makes of an overflow. *)
Lemma fermi_bounds e ef t :
  0 < t ->
  fle (Fin 0) (fermi (Fin e) (Fin ef) (Fin t)) = true /\
  fle (fermi (Fin e) (Fin ef) (Fin t)) (Fin 1) = true /\
  (isnan (dfermi (Fin e) (Fin ef) (Fin t)) = true \/
   fle (dfermi (Fin e) (Fin ef) (Fin t)) (Fin 0) = true).
Proof.
  intros Ht. pose proof kB_pos as Hk.
  assert (Hkt : 0 < kB * t) by (apply Rmult_lt_0_compat; assumption).
  unfold fermi, dfermi. rewrite exponent_regroup, fmul_m1.
  rewrite fermi_exp_fin by exact Ht.
  destruct (fexp_cases ((e - ef) / (kB * t)))
    as [-> | [-> | (y & -> & Hy)]].
  - cbn [fadd fdiv fopp fsqr fmul fsgn sgn_mul inf_of_sign isnan].
    repeat split; [apply fle_fin_true; lra .. | left; reflexivity].
  - rewrite fmul_fin, fopp_fin, !fadd_fin, fsqr_fin.
    rewrite !fdiv_fin by nra.
    repeat split; [apply fle_fin_true .. | right; apply fle_fin_true].
    + apply Rmult_le_pos; [lra |]. left. apply Rinv_0_lt_compat. lra.
    + replace (1 / (0 + 1)) with 1 by (field; lra). lra.
    + replace (- 0 / ((1 + 0) * (1 + 0)) / (kB * t)) with 0
        by (field; lra). lra.
  - assert (Hq : 0 < (1 + y) * (1 + y)) by nra.
    rewrite fmul_fin, fopp_fin, !fadd_fin, fsqr_fin.
    rewrite !fdiv_fin by nra.
    assert (Hf : 0 < 1 / (y + 1) < 1).
    { split; [apply Rdiv_lt_0_compat; lra |].
      apply (Rmult_lt_reg_r (y + 1)); [lra |].
      unfold Rdiv. rewrite Rmult_assoc, Rinv_l by lra. lra. }
    repeat split; [apply fle_fin_true; lra .. | right; apply fle_fin_true].
    assert (0 < y / ((1 + y) * (1 + y)) / (kB * t))
      by (repeat apply Rdiv_lt_0_compat; assumption).
    replace (- y / ((1 + y) * (1 + y)) / (kB * t))
      with (- (y / ((1 + y) * (1 + y)) / (kB * t))) by (field; lra).
    lra.
Qed.

(** At the Fermi level the occupation is exactly one half. *)
Lemma fermi_at_level e t : 0 < t -> fermi (Fin e) (Fin e) (Fin t) = Fin (1 / 2).
Proof.
  intros Ht. pose proof kB_pos as Hk.
  assert (Hkt : 0 < kB * t) by (apply Rmult_lt_0_compat; assumption).
  unfold fermi. rewrite fermi_exp_fin by exact Ht.
  replace ((e - e) / (kB * t)) with 0 by (field; lra).
  rewrite fexp_zero, fadd_fin, fdiv_fin by lra. f_equal; lra.
Qed.

(** C4, as the code has it.  For a grid of one row and Fermi levels and
    temperatures of one row of equal length, [fermiDistribution] returns
    the occupation [1/(xi + 1)] and the derivative
    [-1 xi/(1 + xi)^2/T/kB] with [xi = exp((E - Ef)/T/kB)] at every
    temperature index [j] and energy index [i]: the formulas of the claim,
    with the divisions in the order of the source.  For finite energies and
    Fermi levels and a positive finite temperature the occupation compares
    [0 <= f <= 1], it is exactly 1/2 where the energy is the Fermi level,
    and the derivative compares [<= 0] unless it is [nan].  (The bounds are
    not strict: [np.exp] overflows to [inf], which makes [f = 0] and
    [df/dE = nan]; it underflows to zero, which makes [f = 1], as does in
    float64 every [xi] that [1 + xi] rounds away.) *)
Theorem fermiDistribution_fermi_dirac
        (energyRange fermiLevel Temp : ndarray) :
  nrows energyRange = 1%nat -> nrows fermiLevel = 1%nat ->
  nrows Temp = 1%nat -> ncols fermiLevel = ncols Temp ->
  exists fermiDirac dfdE,
    fermiDistribution energyRange fermiLevel (Some Temp)
    = Ok (fermiDirac, dfdE) /\
    nrows fermiDirac = ncols Temp /\ ncols fermiDirac = ncols energyRange /\
    nrows dfdE = ncols Temp /\ ncols dfdE = ncols energyRange /\
    forall j i, (j < ncols Temp)%nat -> (i < ncols energyRange)%nat ->
      item fermiDirac j i
      = fermi (item energyRange 0 i) (item fermiLevel 0 j) (item Temp 0 j) /\
      item dfdE j i
      = dfermi (item energyRange 0 i) (item fermiLevel 0 j) (item Temp 0 j) /\
      forall e ef t,
        item energyRange 0 i = Fin e -> item fermiLevel 0 j = Fin ef ->
        item Temp 0 j = Fin t -> 0 < t ->
        fle (Fin 0) (item fermiDirac j i) = true /\
        fle (item fermiDirac j i) (Fin 1) = true /\
        (isnan (item dfdE j i) = true \/
         fle (item dfdE j i) (Fin 0) = true) /\
        (e = ef -> item fermiDirac j i = Fin (1 / 2)).
Proof.
  intros HrE HrF HrT HcF.
  destruct (fermiDistribution_entries _ _ _ HrE HrF HrT HcF)
    as (fD & dfdE & Hrun & Hf & Hd).
  destruct (evals_shape Hf) as [Hrf Hcf].
  destruct (evals_shape Hd) as [Hrd Hcd].
  exists fD, dfdE. split; [exact Hrun |]. repeat split; try assumption.
  - apply (evals_item Hf); assumption.
  - apply (evals_item Hd); assumption.
  - rewrite (evals_item Hf), H1, H2, H3 by assumption.
    apply fermi_bounds. exact H4.
  - rewrite (evals_item Hf), H1, H2, H3 by assumption.
    apply fermi_bounds. exact H4.
  - rewrite (evals_item Hd), H1, H2, H3 by assumption.
    apply fermi_bounds. exact H4.
  - intros Heq. rewrite (evals_item Hf), H1, H2, H3 by assumption.
    rewrite Heq. apply fermi_at_level. exact H4.
Qed.

(** The exponent [(1 - 0) / (kB * 1)], about 11604, is beyond the overflow
    of [np.exp]. *)
Lemma exp_overflows_at_1K : exp_overflow <= (1 - 0) / (kB * 1).
Proof.
  pose proof ln_2_bounds. unfold exp_overflow.
  assert (Hk : 0 < kB * 1 <= / 1024).
  { unfold kB. split; [| apply Rmult_le_reg_l with 1024; [lra |]].
    - apply Rmult_lt_0_compat; [| lra].
      apply Rdiv_lt_0_compat; [lra | apply pow_lt; lra].
    - rewrite Rinv_r by lra.
      assert (H14 : 10 ^ 14 = 100000000000000) by (simpl; lra).
      rewrite H14. lra. }
  apply Rle_trans with 1024; [nra |].
  apply Rmult_le_reg_r with (kB * 1); [lra |].
  unfold Rdiv. rewrite Rmult_assoc, Rinv_l by lra.
  destruct Hk as [Hk0 Hk1].
  apply (Rmult_le_compat_l 1024) in Hk1; [| lra].
  rewrite Rinv_r in Hk1 by lra. lra.
Qed.

End FermiDirac.

(** C4 on a grid of two energies, with the Fermi level at the first one. *)
Lemma fermiDistribution_fermi_dirac_witness :
  exists fermiDirac dfdE,
    fermiDistribution Inputs.grid01 Inputs.Ef0 (Some Inputs.T300)
    = Ok (fermiDirac, dfdE) /\
    item fermiDirac 0 0 = Fin (1 / 2) /\
    fle (Fin 0) (item fermiDirac 0 1) = true /\
    fle (item fermiDirac 0 1) (Fin 1) = true.
Proof.
  destruct (@fermiDistribution_fermi_dirac Inputs.grid01 Inputs.Ef0
              Inputs.T300)
    as (fD & dfdE & Hrun & _ & _ & _ & _ & H); try reflexivity.
  exists fD, dfdE. split; [exact Hrun |].
  destruct (H 0%nat 0%nat) as (_ & _ & H0); [cbn; lia | cbn; lia |].
  destruct (H 0%nat 1%nat) as (_ & _ & H1); [cbn; lia | cbn; lia |].
  destruct (H0 0%R 0%R 300%R) as (_ & _ & _ & Hhalf);
    [reflexivity | reflexivity | reflexivity | lra |].
  destruct (H1 1%R 0%R 300%R) as (Hlo & Hhi & _);
    [reflexivity | reflexivity | reflexivity | lra |].
  repeat split; [apply Hhalf; reflexivity | exact Hlo | exact Hhi].
Defined.

(** C4 fails as stated: at the energy 1 eV, the Fermi level 0 eV and the
    temperature 1 K the exponent overflows, the occupation is exactly zero
    (not above zero) and the derivative is [nan] (not negative). *)
Lemma fermiDistribution_saturates :
  exists fermiDirac dfdE,
    fermiDistribution Inputs.E_1eV Inputs.Ef0 (Some Inputs.T_1K)
    = Ok (fermiDirac, dfdE) /\
    item fermiDirac 0 0 = Fin 0 /\ item dfdE 0 0 = NaN.
Proof.
  destruct (@fermiDistribution_entries Inputs.E_1eV Inputs.Ef0 Inputs.T_1K)
    as (fD & dfdE & Hrun & Hf & Hd); try reflexivity.
  exists fD, dfdE. split; [exact Hrun |].
  rewrite (evals_item Hf), (evals_item Hd) by (cbn; lia).
  cbn [item Inputs.E_1eV Inputs.Ef0 Inputs.T_1K row nth].
  unfold Spec.fermi, Spec.dfermi. rewrite exponent_regroup, fmul_m1.
  rewrite fermi_exp_fin by lra.
  rewrite (fexp_overflow exp_overflows_at_1K).
  split; reflexivity.
Qed.

(** ** Matthiessen's rule *)

Section Matthiessen.

Open Scope R_scope.

Lemma evals_setwhere p v a r c f :
  evals (Ok a) r c f ->
  evals (Ok (setwhere p v a)) r c (fun i j => if p (f i j) then v else f i j).
Proof.
  intros (a' & Ha & Hr & Hc & Hf). injection Ha as <-.
  eexists. split; [reflexivity |]. cbn [setwhere nrows ncols item].
  repeat split; try assumption.
  intros i j Hi Hj. rewrite Hf by assumption. reflexivity.
Qed.

(** The accumulator of [sum] once it has the shape of the arguments. *)
Lemma pysum_evals r c (l : list ndarray) :
  same_shape r c l ->
  forall acc facc,
    evals acc r c facc ->
    evals (fold_left (fun acc x => (acc + x)%nd)
                     (map (fun arg => (sc (Fin 1) / Ok arg)%nd) l) acc)
          r c (fun i j => inv_sum_from (facc i j) (entries l i j)).
Proof.
  induction 1 as [| a l [Hr Hc] Hl IH]; intros acc facc Hacc.
  - exact Hacc.
  - cbn [map fold_left entries inv_sum_from]. apply IH.
    pose proof (@evals_Ok a _ _ Hr Hc) as Ha.
    eapply evals_ext; [ev |]. intros i j Hi Hj. idx. reflexivity.
Qed.

(** [matthiessen] entry by entry, for arguments of one shape. *)
Lemma matthiessen_evals r c a (l : list ndarray) :
  same_shape r c (a :: l) ->
  evals (matthiessen (a :: l)) r c
        (fun i j => matthiessen_entry (entries (a :: l) i j)).
Proof.
  intros Hs. destruct (Forall_inv Hs) as [Hr Hc].
  pose proof (Forall_inv_tail Hs) as Hl.
  unfold matthiessen, pysum. cbn [map fold_left].
  assert (H0 : evals (sc (Fin 0) + (sc (Fin 1) / Ok a))%nd r c
                     (fun i j => fadd (Fin 0) (fdiv (Fin 1) (item a i j)))).
  { pose proof (@evals_Ok a _ _ Hr Hc) as Ha.
    eapply evals_ext; [ev |]. intros i j Hi Hj. idx. reflexivity. }
  pose proof (pysum_evals Hl H0) as Hsum.
  assert (Htau : evals
            (sc (Fin 1)
             / fold_left (fun acc x => (acc + x)%nd)
                 (map (fun arg => (sc (Fin 1) / Ok arg)%nd) l)
                 (sc (Fin 0) + (sc (Fin 1) / Ok a)))%nd r c
            (fun i j => fdiv (Fin 1) (inv_sum (entries (a :: l) i j)))).
  { eapply evals_ext; [eapply evals_lift2; [ev | exact Hsum | bd | bd] |].
    intros i j Hi Hj. idx. reflexivity. }
  destruct Htau as (tau & -> & Htr & Htc & Htf). cbn [bind].
  eapply evals_ext.
  - apply evals_setwhere. apply evals_Ok; eassumption.
  - intros i j Hi Hj. cbn beta. rewrite Htf by assumption. reflexivity.
Qed.

(** *** One entry *)

Lemma matthiessen_entry_not_inf vals : isinf (matthiessen_entry vals) = false.
Proof.
  unfold matthiessen_entry.
  destruct (fdiv (Fin 1) (inv_sum vals)); reflexivity.
Qed.

(** A single lifetime that is zero, infinite or [nan]. *)
Lemma matthiessen_entry_single_zero : matthiessen_entry [Fin 0] = Fin 0.
Proof.
  unfold matthiessen_entry, inv_sum, inv_sum_from. cbn [fold_left].
  float_cases.
Qed.

Lemma matthiessen_entry_single_inf v :
  isinf v = true -> matthiessen_entry [v] = Fin 0.
Proof.
  unfold matthiessen_entry, inv_sum, inv_sum_from. cbn [fold_left].
  destruct v as [x | | |]; intros Hv; try discriminate Hv; float_cases.
Qed.

Lemma matthiessen_entry_single_nan v :
  isnan v = true -> isnan (matthiessen_entry [v]) = true.
Proof.
  destruct v as [x | | |]; intros Hv; try discriminate Hv. reflexivity.
Qed.

(** Two lifetimes in either order. *)
Lemma matthiessen_entry_swap x y :
  matthiessen_entry [x; y] = matthiessen_entry [y; x].
Proof.
  unfold matthiessen_entry, inv_sum, inv_sum_from. cbn [fold_left].
  rewrite !fadd_zero_l, (fadd_comm (fdiv (Fin 1) x)). reflexivity.
Qed.

(** *** Inverse rates that are not negative *)

Lemma fle_zero_cases a :
  fle (Fin 0) a = true -> a = PInf \/ exists x, a = Fin x /\ 0 <= x.
Proof.
  destruct a as [x | | |]; intros H; try discriminate H.
  - right. exists x. split; [reflexivity |].
    unfold fle in H. simpl in H.
    destruct (Rlt_dec 0 x), (Req_dec_T 0 x); try discriminate H; lra.
  - left. reflexivity.
Qed.

(** Once the sum of the inverse rates is [+inf] it stays [+inf]. *)
Lemma inv_sum_from_inf vals :
  Forall (fun v => fle (Fin 0) (inv_rate v) = true) vals ->
  inv_sum_from PInf vals = PInf.
Proof.
  induction 1 as [| v vals Hv _ IH]; [reflexivity |].
  cbn [inv_sum_from fold_left]. fold (inv_rate v).
  destruct (fle_zero_cases _ Hv) as [-> | (x & -> & _)]; exact IH.
Qed.

Lemma inv_sum_from_nonneg x vals :
  0 <= x ->
  Forall (fun v => fle (Fin 0) (inv_rate v) = true) vals ->
  Exists (fun v => inv_rate v = PInf) vals ->
  inv_sum_from (Fin x) vals = PInf.
Proof.
  intros Hx Hall. revert x Hx.
  induction Hall as [| v vals Hv Hall IH]; intros x Hx Hex.
  - inversion Hex.
  - cbn [inv_sum_from fold_left]. fold (inv_rate v).
    destruct (fle_zero_cases _ Hv) as [-> | (y & Hy & Hy0)].
    + cbn [fadd]. apply inv_sum_from_inf. exact Hall.
    + rewrite Hy. cbn [fadd]. apply IH; [lra |].
      inversion Hex as [? ? Hhead | ? ? Htail]; subst.
      * rewrite Hy in Hhead. discriminate Hhead.
      * exact Htail.
Qed.

Lemma matthiessen_entry_zero vals :
  Forall (fun v => fle (Fin 0) (inv_rate v) = true) vals ->
  Exists (fun v => inv_rate v = PInf) vals ->
  matthiessen_entry vals = Fin 0.
Proof.
  intros Hall Hex. unfold matthiessen_entry, inv_sum.
  rewrite (@inv_sum_from_nonneg 0 vals) by (lra || assumption). reflexivity.
Qed.

End Matthiessen.

Section MatthiessenProperties.

Open Scope R_scope.

Lemma evals_res_eq x y r c f g :
  evals x r c f -> evals y r c g ->
  (forall i j, (i < r)%nat -> (j < c)%nat -> f i j = g i j) ->
  res_eq x y.
Proof.
  intros (a & -> & Hra & Hca & Hfa) (b & -> & Hrb & Hcb & Hfb) Hfg.
  cbn [res_eq]. unfold arr_eq. rewrite Hra, Hca, Hrb, Hcb.
  repeat split. intros i j Hi Hj.
  rewrite Hfa, Hfb by assumption. apply Hfg; assumption.
Qed.

(** C3, as the code has it.  [matthiessen] computes
    [1 / (0 + 1/tau_1 + ... + 1/tau_n)] entry by entry and replaces an
    infinite result by zero.  With one argument an entry that is zero or
    infinite comes back as zero and [nan] stays [nan]; two arguments can be
    exchanged.  (A finite lifetime that is not zero comes back as
    [1/(1/tau)], which float64 rounds, and sums of three inverse rates or
    more depend on their order by rounding: neither [matthiessen(a) == a]
    nor associativity is stated.) *)
Theorem matthiessen_as_computed (r c : nat) (a b : ndarray) :
  nrows a = r -> ncols a = c -> nrows b = r -> ncols b = c ->
  (exists tau,
      matthiessen [a] = Ok tau /\ nrows tau = r /\ ncols tau = c /\
      forall i j, (i < r)%nat -> (j < c)%nat ->
        item tau i j = matthiessen_entry [item a i j] /\
        (item a i j = Fin 0 -> item tau i j = Fin 0) /\
        (isinf (item a i j) = true -> item tau i j = Fin 0) /\
        (isnan (item a i j) = true -> isnan (item tau i j) = true)) /\
  (exists tau,
      matthiessen [a; b] = Ok tau /\ nrows tau = r /\ ncols tau = c /\
      forall i j, (i < r)%nat -> (j < c)%nat ->
        item tau i j = matthiessen_entry [item a i j; item b i j]) /\
  res_eq (matthiessen [a; b]) (matthiessen [b; a]).
Proof.
  intros Hra Hca Hrb Hcb.
  assert (Hsa : same_shape r c [a])
    by (apply Forall_cons; [split; assumption | apply Forall_nil]).
  assert (Hsab : same_shape r c [a; b])
    by (apply Forall_cons; [split; assumption |];
        apply Forall_cons; [split; assumption | apply Forall_nil]).
  assert (Hsba : same_shape r c [b; a])
    by (apply Forall_cons; [split; assumption | exact Hsa]).
  split; [| split].
  - destruct (matthiessen_evals Hsa) as (tau & H & Hr & Hc & Hf).
    exists tau. split; [exact H |]. split; [exact Hr |].
    split; [exact Hc |]. intros i j Hi Hj.
    rewrite Hf by assumption. unfold entries. cbn [map].
    split; [reflexivity |]. split; [| split].
    + intros Ha. rewrite Ha. apply matthiessen_entry_single_zero.
    + apply matthiessen_entry_single_inf.
    + apply matthiessen_entry_single_nan.
  - destruct (matthiessen_evals Hsab) as (tau & H & Hr & Hc & Hf).
    exists tau. split; [exact H |]. split; [exact Hr |].
    split; [exact Hc |]. exact Hf.
  - eapply evals_res_eq; [apply matthiessen_evals; eassumption .. |].
    intros i j Hi Hj. unfold entries. cbn [map].
    apply matthiessen_entry_swap.
Qed.

(** Whatever the arguments are, an array returned by [matthiessen] holds no
    infinite entry: [tau[np.isinf(tau)] = 0] is the last step. *)
Theorem matthiessen_never_inf (args : list ndarray) (tau : ndarray) :
  matthiessen args = Ok tau -> forall i j, isinf (item tau i j) = false.
Proof.
  unfold matthiessen. destruct args as [| a l]; [discriminate |].
  destruct (lift2 fdiv _ _) as [t | e]; cbn [bind]; [| discriminate].
  intros H. injection H as <-. intros i j. cbn [setwhere item].
  destruct (item t i j); reflexivity.
Qed.

(** For arguments of one shape: at a position where one lifetime is zero
    and every other lifetime is greater than 1e-200 (it may be [+inf]), the
    combined lifetime is zero.  (In float64 the zero can be a negative
    zero: its inverse rate is [-inf], the sum of the inverse rates is
    [-inf] and the result is [-0.0], which is zero.  The bound keeps the
    other inverse rates finite and positive, so that no [inf - inf]
    arises; a second zero, a negative lifetime or a [nan] is excluded.) *)
Theorem matthiessen_zero_lifetime (r c : nat) (before after : list ndarray)
        (a : ndarray) (i j : nat) :
  same_shape r c (before ++ a :: after) -> (i < r)%nat -> (j < c)%nat ->
  item a i j = Fin 0 ->
  Forall (fun v => flt (Fin (/ 10 ^ 200)) v = true)
         (entries (before ++ after) i j) ->
  exists tau,
    matthiessen (before ++ a :: after) = Ok tau /\ item tau i j = Fin 0.
Proof.
  intros Hs Hi Hj Ha Hrest.
  assert (Hne : before ++ a :: after <> [])
    by (destruct before; discriminate).
  destruct (before ++ a :: after) as [| a0 l] eqn:Hargs; [contradiction |].
  destruct (matthiessen_evals Hs) as (tau & H & Hr & Hc & Hf).
  exists tau. split; [exact H |]. rewrite Hf by assumption.
  rewrite <- Hargs. unfold entries in *. rewrite map_app in *.
  cbn [map]. rewrite Ha. apply Forall_app in Hrest as [Hb Hafter].
  assert (Hpos : forall l', Forall (fun v => flt (Fin (/ 10 ^ 200)) v = true) l' ->
                            Forall (fun v => fle (Fin 0) (inv_rate v) = true) l').
  { intros l' Hl. eapply Forall_impl; [| exact Hl]. cbn beta.
    assert (He : 0 < / 10 ^ 200)
      by (apply Rinv_0_lt_compat, pow_lt; lra).
    intros [x | | |] Hx; try discriminate Hx; unfold inv_rate.
    - cbn [flt] in Hx. destruct (Rlt_dec (/ 10 ^ 200) x); [| discriminate].
      rewrite fdiv_fin by lra. apply fle_fin_true.
      apply Rlt_le, Rdiv_lt_0_compat; lra.
    - cbn [fdiv]. apply fle_fin_true. lra. }
  assert (Hzero : inv_rate (Fin 0) = PInf)
    by (unfold inv_rate; apply fdiv_zero_pos; lra).
  apply matthiessen_entry_zero.
  - apply Forall_app. split; [apply Hpos, Hb |].
    apply Forall_cons; [rewrite Hzero; reflexivity | apply Hpos, Hafter].
  - apply Exists_app. right. apply Exists_cons_hd. exact Hzero.
Qed.

End MatthiessenProperties.

(** [matthiessen_never_inf] on a lifetime that is infinite at one energy. *)
Lemma matthiessen_never_inf_witness :
  exists tau, matthiessen [Inputs.tau_b] = Ok tau /\
              forall i j, isinf (item tau i j) = false.
Proof.
  eexists. split; [reflexivity |].
  apply (@matthiessen_never_inf [Inputs.tau_b]). reflexivity.
Defined.

(** [matthiessen_zero_lifetime] at the first energy of [tau_a], [tau_c]. *)
Lemma matthiessen_zero_lifetime_witness :
  exists tau, matthiessen [Inputs.tau_a; Inputs.tau_c] = Ok tau /\
              item tau 0 0 = Fin 0.
Proof.
  apply (@matthiessen_zero_lifetime 1 2 [] [Inputs.tau_c] Inputs.tau_a 0 0).
  - repeat constructor.
  - lia.
  - lia.
  - reflexivity.
  - apply Forall_cons; [| apply Forall_nil].
    cbn [item Inputs.tau_c row nth]. apply flt_fin_true.
    assert (H : (/ 10 ^ 200 <= / 1)%R)
      by (apply Rinv_le_contravar; [lra | apply pow_R1_Rle; lra]).
    rewrite Rinv_1 in H. lra.
Defined.

(** C3 on the lifetimes [tau_a] and [tau_b]. *)
Lemma matthiessen_as_computed_witness :
  res_eq (matthiessen [Inputs.tau_a; Inputs.tau_b])
         (matthiessen [Inputs.tau_b; Inputs.tau_a]).
Proof.
  apply (@matthiessen_as_computed 1 2 Inputs.tau_a Inputs.tau_b);
    reflexivity.
Defined.

(** C3 fails as stated: [matthiessen(a) == a] does not hold for the
    lifetime [a = [4, inf]], whose infinite entry comes back as zero. *)
Lemma matthiessen_infinite_lifetime_becomes_zero :
  exists tau,
    matthiessen [Inputs.tau_b] = Ok tau /\
    item Inputs.tau_b 0 1 = PInf /\ item tau 0 1 = Fin 0.
Proof.
  destruct (@matthiessen_evals 1 2 Inputs.tau_b [])
    as (tau & H & _ & _ & Hf); [repeat constructor |].
  exists tau. split; [exact H |]. split; [reflexivity |].
  rewrite Hf by lia. apply matthiessen_entry_single_inf. reflexivity.
Qed.

(** ** Ionized impurities *)

(** Prove that a product or quotient of positive numbers is positive or
    not zero. *)
Ltac pos :=
  idtac;
  lazymatch goal with
  | |- _ <> 0%R => apply Rgt_not_eq; pos
  | |- (_ > 0)%R => unfold Rgt; pos
  | |- (0 < _ * _)%R => apply Rmult_lt_0_compat; pos
  | |- (0 < _ / _)%R => apply Rdiv_lt_0_compat; pos
  | |- (0 < _ ^ _)%R => apply pow_lt; pos
  | |- (0 < PI)%R => apply PI_RGT_0
  | |- _ => first [assumption | lra]
  end.

(** Run an array expression on concrete arrays: the shapes and the control
    flow are computed, the real numbers are left as they are. *)
Ltac nd_run :=
  cbv [tau_Screened_Coulomb tau_Unscreened_Coulomb
       tau_Strongly_Screened_Coulomb coulomb_tau four_pi_eps matthiessen pysum
       bind lift1 lift2 bop bdim bidx amap sc scalar transpose setwhere
       np.sqr np.power nrows ncols item Nat.eqb row List.length fold_left map
       dielectric Inputs.Si Inputs.grid01 Inputs.m_c Inputs.LD9 Inputs.N25
       Inputs.D45].

(** Split a successful run of a method into the results of its steps. *)
Ltac run_steps :=
  repeat match goal with
         | |- bind ?x _ = Ok _ -> _ =>
             destruct x as [? | ?]; cbn [bind]; [| discriminate]
         end.

Section Coulomb.

Open Scope R_scope.

Lemma hBar_pos : 0 < hBar.
Proof. unfold hBar. pos. Qed.

Lemma e0_pos : 0 < e0.
Proof. unfold e0. pos. Qed.

Lemma setwhere_isnan_clean a i j :
  isnan (item (setwhere isnan (Fin 0) a) i j) = false.
Proof. cbn [setwhere item]. destruct (item a i j); reflexivity. Qed.

(** An array returned by [tau_Screened_Coulomb] holds no [nan]:
    [tau[np.isnan(tau)] = 0] is the last step. *)
Theorem tau_Screened_Coulomb_never_nan
        (s : self) (energyRange m_c LD N tau : ndarray) :
  tau_Screened_Coulomb s energyRange m_c LD N = Ok tau ->
  forall i j, isnan (item tau i j) = false.
Proof.
  unfold tau_Screened_Coulomb. run_steps.
  intros H. injection H as <-. intros i j. apply setwhere_isnan_clean.
Qed.

(** An array returned by [tau_Unscreened_Coulomb] holds no [nan]. *)
Theorem tau_Unscreened_Coulomb_never_nan
        (s : self) (energyRange m_c N tau : ndarray) :
  tau_Unscreened_Coulomb s energyRange m_c N = Ok tau ->
  forall i j, isnan (item tau i j) = false.
Proof.
  unfold tau_Unscreened_Coulomb. run_steps.
  intros H. injection H as <-. intros i j. apply setwhere_isnan_clean.
Qed.

(** For a positive permittivity and positive, finite densities of states,
    screening lengths and concentrations, [tau_Strongly_Screened_Coulomb]
    returns an array of shape (concentrations, energies) none of whose
    entries is negative: every entry compares [>= 0], unless it is [nan].
    (In float64 the quotients can underflow to zero or overflow, and
    [0 / 0] is [nan]; the sign is never lost.) *)
Theorem tau_Strongly_Screened_Coulomb_not_negative
        (s : self) (D LD N : ndarray) (eps : R) (d ld n : nat -> R) :
  dielectric s = Fin eps -> 0 < eps ->
  nrows D = 1%nat -> nrows LD = 1%nat -> nrows N = 1%nat ->
  ncols LD = ncols N ->
  (forall i, (i < ncols D)%nat -> item D 0 i = Fin (d i) /\ 0 < d i) ->
  (forall j, (j < ncols N)%nat -> item LD 0 j = Fin (ld j) /\ 0 < ld j) ->
  (forall j, (j < ncols N)%nat -> item N 0 j = Fin (n j) /\ 0 < n j) ->
  exists tau,
    tau_Strongly_Screened_Coulomb s D LD N = Ok tau /\
    nrows tau = ncols N /\ ncols tau = ncols D /\
    forall j i, (j < ncols N)%nat -> (i < ncols D)%nat ->
      isnan (item tau j i) = true \/ fle (Fin 0) (item tau j i) = true.
Proof.
  intros Heps Hpos HrD HrL HrN HcL HD HL HN.
  pose proof (@evals_Ok D _ _ HrD eq_refl) as HeD.
  pose proof (@evals_Ok LD _ _ HrL HcL) as HeL.
  pose proof (@evals_Ok N _ _ HrN eq_refl) as HeN.
  pose proof hBar_pos as Hh. pose proof e0_pos as He0.
  pose proof e2C_pos as He. pose proof PI_RGT_0 as Hpi.
  assert (H : evals (tau_Strongly_Screened_Coulomb s D LD N)
                    (ncols N) (ncols D)
                    (fun j i => Fin (hBar / n j / PI / d i
                                     / (ld j ^ 2 / (4 * PI * eps * e0)) ^ 2
                                     / e2C ^ 2))).
  { unfold tau_Strongly_Screened_Coulomb, four_pi_eps. rewrite Heps.
    eapply evals_ext; [ev |]. intros j i Hj Hi. idx.
    destruct (HD i Hi) as [-> Hd], (HL j Hj) as [-> Hl],
      (HN j Hj) as [-> Hn].
    assert (Hk : 0 < 4 * PI * eps * e0) by pos.
    assert (Hq : 0 < ld j * ld j / (4 * PI * eps * e0)) by pos.
    assert (Hq2 : 0 < ld j * ld j / (4 * PI * eps * e0)
                      * (ld j * ld j / (4 * PI * eps * e0))) by pos.
    assert (He2 : 0 < e2C ^ 2) by pos.
    fin_eval ltac:(idtac; pos). f_equal. field. repeat split; pos. }
  destruct H as (tau & Htau & Hr & Hc & Hf).
  exists tau. split; [exact Htau |]. split; [exact Hr |].
  split; [exact Hc |]. intros j i Hj Hi. rewrite Hf by assumption.
  destruct (HD i Hi) as [_ Hd], (HL j Hj) as [_ Hl], (HN j Hj) as [_ Hn].
  right. apply fle_fin_true. left. pos.
Qed.

Lemma sgn_hBar : sgn hBar = Gt.
Proof. apply sgn_pos, hBar_pos. Qed.

Lemma sgn_e0 : sgn e0 = Gt.
Proof. apply sgn_pos, e0_pos. Qed.

Lemma sgn_PI : sgn PI = Gt.
Proof. apply sgn_pos, PI_RGT_0. Qed.

Lemma sgn_4 : sgn 4 = Gt.
Proof. apply sgn_pos. lra. Qed.

Hint Rewrite sgn_hBar sgn_e0 sgn_PI sgn_4 : sgn.

(** One entry of the strongly screened lifetime for a vanishing
    concentration and the infinite screening length that goes with it. *)
Lemma strongly_screened_entry_nan d eps :
  0 < d -> 0 < eps ->
  fdiv (fmul (fdiv (fdiv (fdiv (fdiv (Fin hBar) (Fin 0)) (Fin PI)) (Fin d))
                   (fsqr (fdiv (fsqr PInf)
                               (fmul (fmul (fmul (Fin 4) (Fin PI)) (Fin eps))
                                     (Fin e0)))))
             (Fin 1))
       (Fin (e2C ^ 2))
  = NaN.
Proof.
  intros Hd He. float_cases.
Qed.

(** [tau_Strongly_Screened_Coulomb] overwrites nothing: where the
    concentration is zero and the screening length infinite, the entry
    [inf / inf] comes back as [nan], for every positive density of states. *)
Theorem tau_Strongly_Screened_Coulomb_returns_nan
        (s : self) (D LD N : ndarray) (eps : R) (d : nat -> R) (j : nat) :
  dielectric s = Fin eps -> 0 < eps ->
  nrows D = 1%nat -> nrows LD = 1%nat -> nrows N = 1%nat ->
  ncols LD = ncols N ->
  (forall i, (i < ncols D)%nat -> item D 0 i = Fin (d i) /\ 0 < d i) ->
  (j < ncols N)%nat -> item N 0 j = Fin 0 -> item LD 0 j = PInf ->
  exists tau,
    tau_Strongly_Screened_Coulomb s D LD N = Ok tau /\
    forall i, (i < ncols D)%nat -> item tau j i = NaN.
Proof.
  intros Heps Hpos HrD HrL HrN HcL HD Hj HN HL.
  pose proof (@evals_Ok D _ _ HrD eq_refl) as HeD.
  pose proof (@evals_Ok LD _ _ HrL HcL) as HeL.
  pose proof (@evals_Ok N _ _ HrN eq_refl) as HeN.
  assert (H : exists f, evals (tau_Strongly_Screened_Coulomb s D LD N)
                              (ncols N) (ncols D) f /\
                        forall i, (i < ncols D)%nat -> f j i = NaN).
  { unfold tau_Strongly_Screened_Coulomb, four_pi_eps. rewrite Heps.
    eexists. split; [ev |]. intros i Hi. idx.
    destruct (HD i Hi) as [-> Hd]. rewrite HN, HL.
    apply strongly_screened_entry_nan; assumption. }
  destruct H as (f & (tau & Htau & Hr & Hc & Hf) & Hnan).
  exists tau. split; [exact Htau |]. intros i Hi.
  rewrite Hf by assumption. apply Hnan. exact Hi.
Qed.

End Coulomb.

(** [tau_Screened_Coulomb_never_nan] on the grid of two energies, where the
    entry at zero energy is computed as [inf * 0]. *)
Lemma tau_Screened_Coulomb_never_nan_witness :
  exists tau,
    tau_Screened_Coulomb Inputs.Si Inputs.grid01 Inputs.m_c Inputs.LD9
                         Inputs.N25 = Ok tau /\
    forall i j, isnan (item tau i j) = false.
Proof.
  eexists. split; [nd_run; reflexivity |].
  apply (@tau_Screened_Coulomb_never_nan Inputs.Si Inputs.grid01 Inputs.m_c
           Inputs.LD9 Inputs.N25).
  nd_run. reflexivity.
Defined.

(** [tau_Unscreened_Coulomb_never_nan] on the same grid. *)
Lemma tau_Unscreened_Coulomb_never_nan_witness :
  exists tau,
    tau_Unscreened_Coulomb Inputs.Si Inputs.grid01 Inputs.m_c Inputs.N25
    = Ok tau /\
    forall i j, isnan (item tau i j) = false.
Proof.
  eexists. split; [nd_run; reflexivity |].
  apply (@tau_Unscreened_Coulomb_never_nan Inputs.Si Inputs.grid01
           Inputs.m_c Inputs.N25).
  nd_run. reflexivity.
Defined.

(** [tau_Strongly_Screened_Coulomb_not_negative] for silicon, a density of
    states of 1e45, a screening length of 1 nm and 1e25 carriers. *)
Lemma tau_Strongly_Screened_Coulomb_not_negative_witness :
  exists tau,
    tau_Strongly_Screened_Coulomb Inputs.Si Inputs.D45 Inputs.LD9 Inputs.N25
    = Ok tau /\
    nrows tau = 1%nat /\ ncols tau = 2%nat /\
    forall j i, (j < 1)%nat -> (i < 2)%nat ->
      isnan (item tau j i) = true \/ fle (Fin 0) (item tau j i) = true.
Proof.
  apply (@tau_Strongly_Screened_Coulomb_not_negative Inputs.Si Inputs.D45
           Inputs.LD9 Inputs.N25 (117 / 10)
           (fun _ => (10 ^ 45)%R) (fun _ => (1 / 10 ^ 9)%R)
           (fun _ => (10 ^ 25)%R));
    try reflexivity.
  - lra.
  - intros [| [| i]] Hi; cbn in Hi; try lia; (split; [reflexivity | pos]).
  - intros [| j] Hj; cbn in Hj; try lia. split; [reflexivity | pos].
  - intros [| j] Hj; cbn in Hj; try lia. split; [reflexivity | pos].
Defined.

(** [tau_Strongly_Screened_Coulomb_returns_nan] for one vanishing
    concentration. *)
Lemma tau_Strongly_Screened_Coulomb_returns_nan_witness :
  exists tau,
    tau_Strongly_Screened_Coulomb Inputs.Si Inputs.D45 Inputs.LD_inf
                                  Inputs.N_zero = Ok tau /\
    forall i, (i < 2)%nat -> item tau 0 i = NaN.
Proof.
  apply (@tau_Strongly_Screened_Coulomb_returns_nan Inputs.Si Inputs.D45
           Inputs.LD_inf Inputs.N_zero (117 / 10)
           (fun _ => (10 ^ 45)%R) 0);
    try reflexivity.
  - lra.
  - intros [| [| i]] Hi; cbn in Hi; try lia; (split; [reflexivity | pos]).
  - cbn. lia.
Defined.

(** ** The filtering sweep *)

Section FilteringSweep.

Open Scope R_scope.

Lemma ceil_nat_pos x : 0 < x -> exists k, ceil_nat x = S k.
Proof.
  intros Hx. unfold ceil_nat. destruct (archimed (- x)) as [_ Hup].
  assert (Hlt : IZR (up (- x)) < 1) by lra.
  apply lt_IZR in Hlt. exists (Z.to_nat (1 - up (- x)) - 1)%nat. lia.
Qed.

Lemma ceil_nat_nonpos x : x <= 0 -> ceil_nat x = 0%nat.
Proof.
  intros Hx. unfold ceil_nat. destruct (archimed (- x)) as [Hup _].
  assert (Hlt : 0 < IZR (up (- x))) by lra.
  apply lt_IZR in Hlt. lia.
Qed.

(** A range with a positive quotient [(stop - start) / step] starts with
    [start]. *)
Lemma arange_nonempty start stop step :
  step <> 0 -> 0 < (stop - start) / step ->
  exists l, arange start stop step = Ok ((start + INR 0 * step) :: l).
Proof.
  intros Hs Hq. unfold arange.
  destruct (Req_dec_T step 0) as [|_]; [contradiction |].
  destruct (ceil_nat_pos Hq) as [k ->]. cbn [seq map]. eexists. reflexivity.
Qed.

Lemma arange_empty start stop step :
  step <> 0 -> (stop - start) / step <= 0 -> arange start stop step = Ok [].
Proof.
  intros Hs Hq. unfold arange.
  destruct (Req_dec_T step 0) as [|_]; [contradiction |].
  rewrite (ceil_nat_nonpos Hq). reflexivity.
Qed.

Lemma filtering_cell_raises U tau :
  filtering_cell U tau = Raise (NameError "Erange").
Proof. reflexivity. Qed.

(** C6.  As soon as the sweep of barrier heights and the sweep of lifetimes
    both hold a value, [filteringEffect] raises [NameError] for the name
    [Erange], which neither the method nor the module binds: no matrix is
    returned. *)
Theorem filteringEffect_raises_NameError (U0 tau0 uIncrement tauIncrement : R) :
  uIncrement <> 0 -> tauIncrement <> 0 ->
  0 < (U0 - 1 / 10) / uIncrement ->
  0 < (tau0 - tauIncrement) / tauIncrement ->
  filteringEffect U0 tau0 uIncrement tauIncrement
  = Raise (NameError "Erange").
Proof.
  intros Hu Ht HU Htau. unfold filteringEffect.
  destruct (arange_nonempty Hu HU) as [us ->].
  destruct (arange_nonempty Ht Htau) as [taus Htaus].
  cbn [bind foldM]. rewrite Htaus. cbn [bind foldM].
  rewrite filtering_cell_raises. reflexivity.
Qed.

(** The loops never append a cell: a state without rows stays without
    rows, whatever the sweeps are, as long as no exception ends them. *)
Lemma inner_loop_no_row U taus m st :
  foldM (fun st tau =>
           s <- filtering_cell U tau ;;
           Ok (mksweep (sweep_n st + 1) (sweep_m st)
                       (sMatrix st ++ [s])))
        taus (mksweep 0 m []) = Ok st ->
  sweep_n st = 0%nat /\ sMatrix st = [].
Proof.
  destruct taus as [| tau taus]; cbn [foldM].
  - intros H. injection H as <-. split; reflexivity.
  - rewrite filtering_cell_raises. cbn [bind]. intros H. discriminate H.
Qed.

Lemma outer_loop_no_row (tauIncrement tau0 : R) us :
  forall m st,
    foldM (fun st U =>
             let st := mksweep (sweep_n st) (sweep_m st + 1) (sMatrix st) in
             taus <- arange tauIncrement tau0 tauIncrement ;;
             foldM (fun st tau =>
                      s <- filtering_cell U tau ;;
                      Ok (mksweep (sweep_n st + 1) (sweep_m st)
                                  (sMatrix st ++ [s])))
                   taus st)
          us (mksweep 0 m []) = Ok st ->
    sweep_n st = 0%nat /\ sMatrix st = [].
Proof.
  induction us as [| U us IH]; intros m st; cbn [foldM].
  - intros H. injection H as <-. split; reflexivity.
  - cbn [sweep_n sweep_m sMatrix].
    destruct (arange tauIncrement tau0 tauIncrement) as [taus | e];
      cbn [bind]; [| intros H; discriminate H].
    destruct (foldM _ taus (mksweep 0 (m + 1) [])) as [st' | e] eqn:Hin;
      cbn [bind]; [| intros H; discriminate H].
    destruct (inner_loop_no_row _ _ _ Hin) as [Hn Hs].
    destruct st' as [n' m' l']. cbn [sweep_n sMatrix] in Hn, Hs. subst.
    apply IH.
Qed.

(** Whenever [filteringEffect] returns, the matrix it returns has no row:
    no cell of the sweep is ever computed. *)
Theorem filteringEffect_returns_no_row
        (U0 tau0 uIncrement tauIncrement : R) (M : ndarray) :
  filteringEffect U0 tau0 uIncrement tauIncrement = Ok M -> nrows M = 0%nat.
Proof.
  unfold filteringEffect.
  destruct (arange (1 / 10) U0 uIncrement) as [us | e];
    cbn [bind]; [| intros H; discriminate H].
  destruct (foldM _ us (mksweep 0 0 [])) as [st | e] eqn:Hloop;
    cbn [bind]; [| intros H; discriminate H].
  destruct (outer_loop_no_row _ _ _ _ Hloop) as [Hn Hs].
  unfold reshape. rewrite Hn, Hs. cbn [List.length Nat.mul Nat.eqb].
  intros H. injection H as <-. reflexivity.
Qed.

End FilteringSweep.

(** [filteringEffect_raises_NameError] with the default increments (0.05 eV
    and 1e-15 s), barrier heights up to 0.5 eV and lifetimes up to 3e-15 s. *)
Lemma filteringEffect_raises_NameError_witness :
  filteringEffect (1 / 2) (3 / 10 ^ 15) (5 / 100) (1 / 10 ^ 15)
  = Raise (NameError "Erange").
Proof.
  assert (Hp : (10 ^ 15 <> 0)%R) by (apply pow_nonzero; lra).
  apply filteringEffect_raises_NameError.
  - lra.
  - intros H. apply (Rmult_eq_compat_r (10 ^ 15)) in H.
    unfold Rdiv in H. rewrite Rmult_assoc, Rinv_l in H by exact Hp. lra.
  - lra.
  - replace ((3 / 10 ^ 15 - 1 / 10 ^ 15) / (1 / 10 ^ 15))%R with 2%R
      by (field; exact Hp).
    lra.
Defined.

(** [filteringEffect_returns_no_row] for barrier heights that end below
    the first one, 0.1 eV: the call returns, and the matrix has no row. *)
Lemma filteringEffect_returns_no_row_witness :
  exists M,
    filteringEffect (1 / 20) (3 / 10 ^ 15) (5 / 100) (1 / 10 ^ 15) = Ok M /\
    nrows M = 0%nat.
Proof.
  assert (Hrun : exists M,
             filteringEffect (1 / 20) (3 / 10 ^ 15) (5 / 100) (1 / 10 ^ 15)
             = Ok M).
  { unfold filteringEffect.
    rewrite (@arange_empty (1 / 10) (1 / 20) (5 / 100)) by lra.
    cbn [bind foldM sMatrix sweep_n sweep_m reshape List.length Nat.mul
         Nat.eqb]. eexists. reflexivity. }
  destruct Hrun as (M & HM). exists M. split; [exact HM |].
  exact (@filteringEffect_returns_no_row _ _ _ _ M HM).
Defined.

(** ** Transport coefficients *)

Section Trapz.

Lemma fsum_ext f g n :
  (forall k, (k < n)%nat -> f k = g k) -> fsum f n = fsum g n.
Proof.
  induction n as [| n IH]; intros H; [reflexivity |].
  cbn [fsum]. rewrite IH by (intros k Hk; apply H; lia).
  rewrite H by lia. reflexivity.
Qed.

Lemma evals_tail_cols a r c f :
  evals (Ok a) r c f ->
  evals (Ok (tail_cols a)) r (c - 1) (fun i j => f i (S j)).
Proof.
  intros (a' & Ha & Hr & Hc & Hf). injection Ha as <-.
  eexists. split; [reflexivity |]. cbn [tail_cols nrows ncols item].
  rewrite Hc. repeat split; try assumption.
  intros i j Hi Hj. apply Hf; lia.
Qed.

Lemma evals_init_cols a r c f :
  evals (Ok a) r c f ->
  evals (Ok (init_cols a)) r (c - 1) (fun i j => f i j).
Proof.
  intros (a' & Ha & Hr & Hc & Hf). injection Ha as <-.
  eexists. split; [reflexivity |]. cbn [init_cols nrows ncols item].
  rewrite Hc. repeat split; try assumption.
  intros i j Hi Hj. apply Hf; lia.
Qed.

(** [np.trapz(y, E, axis=1)] for a grid [E] of one row: one trapezoidal
    integral per row of [y]. *)
Lemma evals_trapzE y E ry N fy fE g :
  evals y ry N fy -> evals (Ok E) 1 N fE ->
  (forall j k, (j < ry)%nat -> (k < N)%nat -> fy j k = g j k) ->
  evals (trapzE y E) 1 ry (fun _ j => Spec.integral (g j) (fE 0%nat) N).
Proof.
  intros (a & -> & Hra & Hca & Hfa) HE Hg.
  assert (Ha : evals (Ok a) ry N fy) by (exists a; repeat split; assumption).
  pose proof (evals_tail_cols Ha) as Hta.
  pose proof (evals_init_cols Ha) as Hia.
  pose proof (evals_tail_cols HE) as HtE.
  pose proof (evals_init_cols HE) as HiE.
  cbn [trapzE bind]. unfold trapz.
  assert (Hs : evals ((Ok (tail_cols E) - Ok (init_cols E))
                      * (Ok (tail_cols a) + Ok (init_cols a))
                      / sc (Fin 2))%nd ry (N - 1)
                     (fun j k => fdiv (fmul (fsub (fE 0%nat (S k))
                                                  (fE 0%nat k))
                                            (fadd (g j (S k)) (g j k)))
                                      (Fin 2))).
  { eapply evals_ext; [ev |]. intros j k Hj Hk. idx.
    rewrite !Hg by lia. reflexivity. }
  destruct Hs as (sm & -> & Hsr & Hsc & Hsf). cbn [bind].
  eexists. split; [reflexivity |]. cbn [sum_axis1 nrows ncols item].
  repeat split; try assumption.
  intros _ j _ Hj. unfold Spec.integral. rewrite Hsc.
  apply fsum_ext. intros k Hk. apply Hsf; assumption.
Qed.

End Trapz.

Section ElectricalPropertiesFormulas.

Open Scope R_scope.

Lemma row0_first a n f :
  evals (Ok a) 1 n f -> exists b, row0 a = Ok b /\ evals (Ok b) 1 n f.
Proof.
  intros H. destruct (row0_evals H) as (b & Hb & Hr & Hc & Hf).
  exists b. split; [exact Hb |]. exists b.
  repeat split; try assumption.
  intros i j Hi Hj. replace i with 0%nat by lia. apply Hf. exact Hj.
Qed.

(** The seven arrays that [electricalProperties] returns, entry by
    entry. *)
Lemma electricalProperties_entries
      (E DoS vg Ef dfdE Temp tau : ndarray) :
  nrows E = 1%nat -> nrows DoS = 1%nat -> ncols DoS = ncols E ->
  nrows Ef = 1%nat -> ncols Ef = ncols Temp -> nrows Temp = 1%nat ->
  nrows vg = 1%nat \/ nrows vg = ncols Temp -> ncols vg = ncols E ->
  nrows dfdE = ncols Temp -> ncols dfdE = ncols E ->
  nrows tau = 1%nat \/ nrows tau = ncols Temp -> ncols tau = ncols E ->
  exists c,
    electricalProperties E DoS vg Ef dfdE Temp tau = Ok c /\
    evals (Ok (coef_Sigma c)) 1 (ncols Temp)
          (fun _ j => Spec.Sigma (item E 0) (item DoS 0) (over_rows vg)
                        (item dfdE) (over_rows tau) (ncols E) j) /\
    evals (Ok (coef_S c)) 1 (ncols Temp)
          (fun _ j => Spec.Seebeck (item E 0) (item DoS 0) (over_rows vg)
                        (item dfdE) (over_rows tau) (item Ef 0)
                        (item Temp 0) (ncols E) j) /\
    evals (Ok (coef_PF c)) 1 (ncols Temp)
          (fun _ j => Spec.PF (item E 0) (item DoS 0) (over_rows vg)
                        (item dfdE) (over_rows tau) (item Ef 0)
                        (item Temp 0) (ncols E) j) /\
    evals (Ok (coef_ke c)) 1 (ncols Temp)
          (fun _ j => Spec.ke (item E 0) (item DoS 0) (over_rows vg)
                        (item dfdE) (over_rows tau) (item Ef 0)
                        (item Temp 0) (ncols E) j) /\
    evals (Ok (coef_delta_1 c)) 1 (ncols Temp)
          (fun _ j => Spec.delta_1 (item E 0) (item DoS 0) (over_rows vg)
                        (item dfdE) (over_rows tau) (ncols E) j) /\
    evals (Ok (coef_delta_2 c)) 1 (ncols Temp)
          (fun _ j => Spec.delta_2 (item E 0) (item DoS 0) (over_rows vg)
                        (item dfdE) (over_rows tau) (ncols E) j) /\
    evals (Ok (coef_Lorenz c)) 1 (ncols Temp)
          (fun _ j => Spec.Lorenz (item E 0) (item DoS 0) (over_rows vg)
                        (item dfdE) (over_rows tau) (item Temp 0)
                        (ncols E) j).
Proof.
  intros HrE HrD HcD HrF HcF HrT Hv HcV Hrd Hcd Ht Hct.
  destruct (bdim_row_or Hv) as [Hbv Hbv'].
  destruct (bdim_row_or Ht) as [Hbt Hbt'].
  pose proof (@evals_Ok _ _ _ HrE eq_refl) as HE.
  pose proof (@evals_Ok _ _ _ HrD HcD) as HD.
  pose proof (@evals_Ok _ _ _ eq_refl HcV) as HV.
  pose proof (@evals_Ok _ _ _ HrF HcF) as HF.
  pose proof (@evals_Ok _ _ _ Hrd Hcd) as Hd.
  pose proof (@evals_Ok _ _ _ HrT eq_refl) as HT.
  pose proof (@evals_Ok _ _ _ eq_refl Hct) as Htau.
  set (N := ncols E) in *. set (nT := ncols Temp) in *.
  unfold electricalProperties.
  assert (HX : evals (Ok DoS * sqr (Ok vg) * Ok dfdE)%nd nT N
                     (fun j i => Spec.X (item DoS 0) (over_rows vg)
                                        (item dfdE) j i)).
  { eapply evals_ext; [ev |]. intros j i Hj Hi. idxs. reflexivity. }
  apply evals_inv in HX. destruct HX as (X & -> & HX). cbn [bind].
  assert (HY : evals ((Ok E - Ok (transpose Ef)) * Ok X)%nd nT N
                     (fun j i => Spec.Y (item E 0) (item DoS 0) (over_rows vg)
                                        (item dfdE) (item Ef 0) j i)).
  { eapply evals_ext; [ev |]. intros j i Hj Hi. idxs. reflexivity. }
  apply evals_inv in HY. destruct HY as (Y & -> & HY). cbn [bind].
  assert (HZ : evals ((Ok E - Ok (transpose Ef)) * Ok Y)%nd nT N
                     (fun j i => Spec.Z (item E 0) (item DoS 0) (over_rows vg)
                                        (item dfdE) (item Ef 0) j i)).
  { eapply evals_ext; [ev |]. intros j i Hj Hi. idxs. reflexivity. }
  apply evals_inv in HZ. destruct HZ as (Z & -> & HZ). cbn [bind].
  assert (HIX : evals (trapzE (Ok X * Ok tau)%nd E) 1 nT
                      (fun _ j => Spec.int_X (item E 0) (item DoS 0)
                                    (over_rows vg) (item dfdE)
                                    (over_rows tau) N j)).
  { unfold Spec.int_X. eapply evals_trapzE; [ev | exact HE |].
    intros j i Hj Hi. idxs. reflexivity. }
  assert (HIY : evals (trapzE (Ok Y * Ok tau)%nd E) 1 nT
                      (fun _ j => Spec.int_Y (item E 0) (item DoS 0)
                                    (over_rows vg) (item dfdE)
                                    (over_rows tau) (item Ef 0) N j)).
  { unfold Spec.int_Y. eapply evals_trapzE; [ev | exact HE |].
    intros j i Hj Hi. idxs. reflexivity. }
  assert (HIZ : evals (trapzE (Ok Z * Ok tau)%nd E) 1 nT
                      (fun _ j => Spec.int_Z (item E 0) (item DoS 0)
                                    (over_rows vg) (item dfdE)
                                    (over_rows tau) (item Ef 0) N j)).
  { unfold Spec.int_Z. eapply evals_trapzE; [ev | exact HE |].
    intros j i Hj Hi. idxs. reflexivity. }
  assert (HIXE : evals (trapzE (Ok X * Ok tau * Ok E)%nd E) 1 nT
                       (fun _ j => Spec.int_XE (item E 0) (item DoS 0)
                                     (over_rows vg) (item dfdE)
                                     (over_rows tau) N j)).
  { unfold Spec.int_XE. eapply evals_trapzE; [ev | exact HE |].
    intros j i Hj Hi. idxs. reflexivity. }
  assert (HIXE2 : evals (trapzE (Ok X * Ok tau * sqr (Ok E))%nd E) 1 nT
                        (fun _ j => Spec.int_XE2 (item E 0) (item DoS 0)
                                      (over_rows vg) (item dfdE)
                                      (over_rows tau) N j)).
  { unfold Spec.int_XE2. eapply evals_trapzE; [ev | exact HE |].
    intros j i Hj Hi. idxs. reflexivity. }
  assert (HSigma : evals (sc (Fin (-1)) * trapzE (Ok X * Ok tau) E
                          / sc (Fin 3) * sc (Fin e2C))%nd 1 nT
                         (fun _ j => Spec.Sigma (item E 0) (item DoS 0)
                                       (over_rows vg) (item dfdE)
                                       (over_rows tau) N j)).
  { eapply evals_ext; [ev |]. intros i j Hi Hj. idxs. apply Sigma_regroup. }
  apply evals_inv in HSigma. destruct HSigma as (Sigma & -> & HSigma).
  cbn [bind].
  assert (HS : evals (sc (Fin (-1)) * trapzE (Ok Y * Ok tau) E
                      / trapzE (Ok X * Ok tau) E / Ok Temp)%nd 1 nT
                     (fun _ j => Spec.Seebeck (item E 0) (item DoS 0)
                                   (over_rows vg) (item dfdE) (over_rows tau)
                                   (item Ef 0) (item Temp 0) N j)).
  { eapply evals_ext; [ev |]. intros i j Hi Hj. idxs. rewrite fmul_m1.
    reflexivity. }
  apply evals_inv in HS. destruct HS as (S & -> & HS). cbn [bind].
  assert (HPF : evals (Ok Sigma * sqr (Ok S))%nd 1 nT
                      (fun _ j => Spec.PF (item E 0) (item DoS 0)
                                    (over_rows vg) (item dfdE) (over_rows tau)
                                    (item Ef 0) (item Temp 0) N j)).
  { eapply evals_ext; [ev |]. intros i j Hi Hj. idxs. reflexivity. }
  apply evals_inv in HPF. destruct HPF as (PF & -> & HPF). cbn [bind].
  assert (Hke : evals (sc (Fin (-1))
                       * (trapzE (Ok Z * Ok tau) E
                          - sqr (trapzE (Ok Y * Ok tau) E)
                            / trapzE (Ok X * Ok tau) E)
                       / Ok Temp / sc (Fin 3) * sc (Fin e2C))%nd 1 nT
                      (fun _ j => Spec.ke (item E 0) (item DoS 0)
                                    (over_rows vg) (item dfdE) (over_rows tau)
                                    (item Ef 0) (item Temp 0) N j)).
  { eapply evals_ext; [ev |]. intros i j Hi Hj. idxs. apply ke_regroup. }
  apply evals_inv in Hke. destruct Hke as (ke & -> & Hke). cbn [bind].
  apply evals_inv in HIXE. destruct HIXE as (delta_0 & Hd0 & HIXE).
  rewrite Hd0. cbn [bind].
  assert (Hd1 : evals (Ok delta_0 / trapzE (Ok X * Ok tau) E)%nd 1 nT
                      (fun _ j => Spec.delta_1 (item E 0) (item DoS 0)
                                    (over_rows vg) (item dfdE) (over_rows tau)
                                    N j)).
  { eapply evals_ext; [ev |]. intros i j Hi Hj. idxs. reflexivity. }
  apply evals_inv in Hd1. destruct Hd1 as (delta_1 & -> & Hd1). cbn [bind].
  assert (Hd2 : evals (trapzE (Ok X * Ok tau * sqr (Ok E)) E
                       / trapzE (Ok X * Ok tau) E)%nd 1 nT
                      (fun _ j => Spec.delta_2 (item E 0) (item DoS 0)
                                    (over_rows vg) (item dfdE) (over_rows tau)
                                    N j)).
  { eapply evals_ext; [ev |]. intros i j Hi Hj. idxs. reflexivity. }
  apply evals_inv in Hd2. destruct Hd2 as (delta_2 & -> & Hd2). cbn [bind].
  assert (HL : evals ((Ok delta_2 - sqr (Ok delta_1)) / Ok Temp / Ok Temp)%nd
                     1 nT
                     (fun _ j => Spec.Lorenz (item E 0) (item DoS 0)
                                   (over_rows vg) (item dfdE) (over_rows tau)
                                   (item Temp 0) N j)).
  { eapply evals_ext; [ev |]. intros i j Hi Hj. idxs. apply Lorenz_regroup. }
  apply evals_inv in HL. destruct HL as (Lorenz & -> & HL). cbn [bind].
  destruct (row0_first HS) as (S0 & -> & HS0).
  destruct (row0_first HPF) as (PF0 & -> & HPF0).
  destruct (row0_first Hke) as (ke0 & -> & Hke0).
  destruct (row0_first HL) as (L0 & -> & HL0).
  cbn [bind]. eexists. split; [reflexivity |].
  cbn [coef_Sigma coef_S coef_PF coef_ke coef_delta_1 coef_delta_2
         coef_Lorenz].
  repeat split; assumption.
Qed.

(** C2.  [electricalProperties] on a grid and a density of states of [N]
    energies, Fermi levels and temperatures of [nT] entries, an occupation
    derivative of shape [(nT, N)], and a group velocity and a lifetime of
    one row or of [nT] rows: the call returns seven rows of [nT] entries,
    and at every temperature index they are
    [Sigma = -(1/3) e int(X tau)], [S = -int(Y tau)/int(X tau)/T],
    [PF = Sigma S^2], [ke = -(1/(3T)) e (int(Z tau) - int(Y tau)^2/int(X tau))],
    [delta_1 = int(X tau E)/int(X tau)], [delta_2 = int(X tau E^2)/int(X tau)]
    and [Lorenz = (delta_2 - delta_1^2)/T^2], with [X = DoS vg^2 dfdE],
    [Y = (E - Ef) X], [Z = (E - Ef) Y] and trapezoidal integrals over the
    grid. *)
Theorem electricalProperties_formulas
        (E DoS vg Ef dfdE Temp tau : ndarray) :
  nrows E = 1%nat -> nrows DoS = 1%nat -> ncols DoS = ncols E ->
  nrows Ef = 1%nat -> ncols Ef = ncols Temp -> nrows Temp = 1%nat ->
  nrows vg = 1%nat \/ nrows vg = ncols Temp -> ncols vg = ncols E ->
  nrows dfdE = ncols Temp -> ncols dfdE = ncols E ->
  nrows tau = 1%nat \/ nrows tau = ncols Temp -> ncols tau = ncols E ->
  exists c,
    electricalProperties E DoS vg Ef dfdE Temp tau = Ok c /\
    (forall r, In r [coef_Sigma c; coef_S c; coef_PF c; coef_ke c;
                     coef_delta_1 c; coef_delta_2 c; coef_Lorenz c] ->
               nrows r = 1%nat /\ ncols r = ncols Temp) /\
    forall j, (j < ncols Temp)%nat ->
      item (coef_Sigma c) 0 j
      = Spec.Sigma (item E 0) (item DoS 0) (over_rows vg) (item dfdE)
                   (over_rows tau) (ncols E) j /\
      item (coef_S c) 0 j
      = Spec.Seebeck (item E 0) (item DoS 0) (over_rows vg) (item dfdE)
                     (over_rows tau) (item Ef 0) (item Temp 0) (ncols E) j /\
      item (coef_PF c) 0 j
      = Spec.PF (item E 0) (item DoS 0) (over_rows vg) (item dfdE)
                (over_rows tau) (item Ef 0) (item Temp 0) (ncols E) j /\
      item (coef_ke c) 0 j
      = Spec.ke (item E 0) (item DoS 0) (over_rows vg) (item dfdE)
                (over_rows tau) (item Ef 0) (item Temp 0) (ncols E) j /\
      item (coef_delta_1 c) 0 j
      = Spec.delta_1 (item E 0) (item DoS 0) (over_rows vg) (item dfdE)
                     (over_rows tau) (ncols E) j /\
      item (coef_delta_2 c) 0 j
      = Spec.delta_2 (item E 0) (item DoS 0) (over_rows vg) (item dfdE)
                     (over_rows tau) (ncols E) j /\
      item (coef_Lorenz c) 0 j
      = Spec.Lorenz (item E 0) (item DoS 0) (over_rows vg) (item dfdE)
                    (over_rows tau) (item Temp 0) (ncols E) j.
Proof.
  intros HrE HrD HcD HrF HcF HrT Hv HcV Hrd Hcd Ht Hct.
  destruct (@electricalProperties_entries E DoS vg Ef dfdE Temp tau)
    as (c & Hc & HSigma & HS & HPF & Hke & Hd1 & Hd2 & HL); try assumption.
  exists c. split; [exact Hc |]. split.
  - intros r Hr. cbn [In] in Hr.
    repeat (destruct Hr as [<- | Hr];
            [eapply evals_shape; eassumption |]).
    contradiction.
  - intros j Hj.
    rewrite (evals_item HSigma), (evals_item HS), (evals_item HPF),
      (evals_item Hke), (evals_item Hd1), (evals_item Hd2), (evals_item HL)
      by (assumption || lia).
    repeat split.
Qed.

End ElectricalPropertiesFormulas.

(** The transport coefficients on a grid of two energies at one temperature,
    with a group velocity and a lifetime of one row. *)
Lemma electricalProperties_formulas_witness :
  exists c,
    electricalProperties Inputs.grid01 Inputs.flatDoS Inputs.vg_flat
                         Inputs.Ef0 Inputs.dfdE_flat Inputs.T300 Inputs.tau_c
    = Ok c /\
    item (coef_Sigma c) 0 0
    = Spec.Sigma (item Inputs.grid01 0) (item Inputs.flatDoS 0)
                 (over_rows Inputs.vg_flat) (item Inputs.dfdE_flat)
                 (over_rows Inputs.tau_c) 2 0 /\
    item (coef_S c) 0 0
    = Spec.Seebeck (item Inputs.grid01 0) (item Inputs.flatDoS 0)
                   (over_rows Inputs.vg_flat) (item Inputs.dfdE_flat)
                   (over_rows Inputs.tau_c) (item Inputs.Ef0 0)
                   (item Inputs.T300 0) 2 0.
Proof.
  destruct (@electricalProperties_formulas Inputs.grid01 Inputs.flatDoS
              Inputs.vg_flat Inputs.Ef0 Inputs.dfdE_flat Inputs.T300
              Inputs.tau_c) as (c & Hc & _ & Hf);
    try reflexivity; try (left; reflexivity).
  exists c. split; [exact Hc |].
  destruct (Hf 0%nat) as (HSigma & HS & _); [cbn; lia |].
  split; [exact HSigma | exact HS].
Defined.

(** ** The self-consistent Fermi level *)

Section Loops.

Lemma mapM_ok (A B : Type) (f : A -> res B) (g : A -> B) l :
  (forall x, In x l -> f x = Ok (g x)) -> mapM f l = Ok (map g l).
Proof.
  induction l as [| a l IH]; intros H; [reflexivity |].
  cbn [mapM map]. rewrite H by (left; reflexivity). cbn [bind].
  rewrite IH by (intros x Hx; apply H; right; exact Hx). reflexivity.
Qed.

Lemma nth_map_seq (B : Type) (g : nat -> B) n i d :
  (i < n)%nat -> nth i (map g (seq 0 n)) d = g i.
Proof.
  intros Hi. rewrite (nth_indep _ d (g 0%nat)) by (rewrite length_map, length_seq; exact Hi).
  rewrite map_nth. rewrite seq_nth by exact Hi. reflexivity.
Qed.

(** Two nested loops none of whose cells raises fill the whole array. *)
Lemma fill_evals m n cell g :
  (forall j i, (j < m)%nat -> (i < n)%nat -> cell j i = Ok (g j i)) ->
  evals (fill m n cell) m n g.
Proof.
  intros H. unfold fill.
  rewrite (@mapM_ok _ _ _ (fun j => map (fun i => g j i) (seq 0 n))).
  - cbn [bind]. eexists. split; [reflexivity |]. cbn [nrows ncols item].
    repeat split. intros j i Hj Hi.
    rewrite nth_map_seq by exact Hj. apply nth_map_seq. exact Hi.
  - intros j Hj. apply in_seq in Hj. apply mapM_ok.
    intros i Hi. apply in_seq in Hi. apply H; lia.
Qed.

End Loops.

Section FiniteSums.

Open Scope R_scope.

Lemma fsum_fin f g n :
  (forall k, (k < n)%nat -> f k = Fin (g k)) -> fsum f n = Fin (Spec.rsum g n).
Proof.
  induction n as [| n IH]; intros H; [reflexivity |].
  cbn [fsum Spec.rsum]. rewrite IH by (intros k Hk; apply H; lia).
  rewrite H by lia. reflexivity.
Qed.

Lemma integral_fin y x y' x' n :
  (forall i, (i < n)%nat -> y i = Fin (y' i)) ->
  (forall i, (i < n)%nat -> x i = Fin (x' i)) ->
  Spec.integral y x n = Fin (Spec.integral_R y' x' n).
Proof.
  intros Hy Hx. unfold Spec.integral, Spec.integral_R. apply fsum_fin.
  intros k Hk. rewrite !Hy, !Hx by lia. simpl fsub. simpl fadd. simpl fmul.
  rewrite fdiv_fin by lra. reflexivity.
Qed.

End FiniteSums.

Section Argmin.

Lemma fle_refl a : isnan a = false -> fle a a = true.
Proof.
  destruct a as [x | | |]; intros H; try reflexivity; try discriminate H.
  apply fle_fin_true. apply Rle_refl.
Qed.

Lemma fle_not_nan a b :
  fle a b = true -> isnan a = false /\ isnan b = false.
Proof.
  destruct a, b; intros H; split; try reflexivity; discriminate H.
Qed.

Lemma flt_fle a b : flt a b = true -> fle a b = true.
Proof. intros H. unfold fle. rewrite H. reflexivity. Qed.

Lemma flt_of_not_fge a b :
  isnan a = false -> isnan b = false -> fge a b = false -> flt a b = true.
Proof.
  unfold fge, fle.
  destruct a as [x | | |], b as [y | | |]; cbn [isnan flt feq orb];
    intros Ha Hb H; try reflexivity; try discriminate.
  destruct (Rlt_dec y x), (Req_dec_T y x), (Rlt_dec x y);
    cbn [orb] in H; try reflexivity; try discriminate H.
  exfalso. lra.
Qed.

Lemma flt_fle_trans a b c :
  flt a b = true -> fle b c = true -> flt a c = true.
Proof.
  unfold fle.
  destruct a as [x | | |], b as [y | | |], c as [z | | |];
    cbn [flt feq orb]; intros H1 H2;
    try reflexivity; try discriminate.
  destruct (Rlt_dec x y), (Rlt_dec y z), (Req_dec_T y z), (Rlt_dec x z);
    cbn [orb] in H2; try reflexivity; try discriminate; exfalso; lra.
Qed.

Variable f : nat -> npfloat.
Variable n : nat.

Lemma argmin_loop_first i rem m :
  (m < i)%nat -> (i + rem = n)%nat ->
  (forall j, (j < i)%nat -> fle (f m) (f j) = true) ->
  (forall j, (j < m)%nat -> flt (f m) (f j) = true) ->
  Spec.first_minimum f n (argmin_loop f i rem m).
Proof.
  revert i m. induction rem as [| rem IH]; intros i m Hm Hn Hle Hlt.
  - cbn [argmin_loop]. replace n with i by lia.
    split; [exact Hm |]. right. split; assumption.
  - cbn [argmin_loop].
    destruct (fge (f i) (f m)) eqn:Hge; cbn [negb].
    + apply IH; try lia; try assumption.
      intros j Hj. destruct (Nat.eq_dec j i) as [-> | Hne];
        [exact Hge | apply Hle; lia].
    + destruct (isnan (f i)) eqn:Hnan.
      * split; [lia |]. left. split; [exact Hnan |].
        intros j Hj. apply (@fle_not_nan _ _ (Hle j Hj)).
      * assert (Hi : flt (f i) (f m) = true).
        { apply flt_of_not_fge; [exact Hnan | | exact Hge].
          apply (@fle_not_nan _ _ (Hle m Hm)). }
        apply IH; try lia.
        -- intros j Hj. destruct (Nat.eq_dec j i) as [-> | Hne].
           ++ apply fle_refl. exact Hnan.
           ++ apply flt_fle, (@flt_fle_trans _ _ _ Hi), Hle. lia.
        -- intros j Hj. apply (@flt_fle_trans _ _ _ Hi), Hle. lia.
Qed.

(** [np.argmin] returns the first [nan], and without one the first index of
    the least value. *)
Lemma argmin_first_minimum :
  (0 < n)%nat -> Spec.first_minimum f n (argmin f n).
Proof.
  intros Hn. unfold argmin. destruct (isnan (f 0%nat)) eqn:H0.
  - split; [exact Hn |]. left. split; [exact H0 |]. intros i Hi. lia.
  - apply argmin_loop_first; try lia.
    intros j Hj. replace j with 0%nat by lia. apply fle_refl. exact H0.
Qed.

Lemma argmin_loop_ext g i rem m :
  (forall j, (j < i + rem)%nat -> f j = g j) -> (m < i)%nat ->
  argmin_loop f i rem m = argmin_loop g i rem m.
Proof.
  revert i m. induction rem as [| rem IH]; intros i m H Hm; [reflexivity |].
  cbn [argmin_loop]. rewrite <- (H i), <- (H m) by lia.
  destruct (negb (fge (f i) (f m))); [destruct (isnan (f i)) |];
    try reflexivity; apply IH; try lia; intros j Hj; apply H; lia.
Qed.

(** [np.argmin] reads the entries below [n] only. *)
Lemma argmin_ext g :
  (0 < n)%nat -> (forall j, (j < n)%nat -> f j = g j) ->
  argmin f n = argmin g n.
Proof.
  intros Hn H. unfold argmin. rewrite <- (H 0%nat) by exact Hn.
  destruct (isnan (f 0%nat)); [reflexivity |].
  apply argmin_loop_ext; [| lia]. intros j Hj. apply H. lia.
Qed.

End Argmin.

Section Concentration.

Import Spec.

(** One cell of [result_array]: the trapezoidal integral of the density of
    states times the occupation. *)
Lemma concentration_at_value energyRange DoS x t :
  nrows energyRange = 1%nat -> nrows DoS = 1%nat ->
  ncols DoS = ncols energyRange ->
  concentration_at energyRange DoS x t
  = Ok (carriers (item energyRange 0) (item DoS 0) (ncols energyRange) x t).
Proof.
  intros HrE HrD HcD. set (N := ncols energyRange) in *.
  pose proof (@evals_Ok _ _ _ HrE eq_refl) as HeE. fold N in HeE.
  pose proof (@evals_Ok _ _ _ HrD HcD) as HeD.
  destruct (@fermiDistribution_entries energyRange (scalar x) (scalar t)
              HrE eq_refl eq_refl eq_refl)
    as (fD & dfdE & Hrun & Hf & _).
  cbn [scalar nrows ncols item] in Hf. fold N in Hf.
  unfold concentration_at. rewrite Hrun. cbn [bind fst].
  assert (Hdf : evals (bop fmul DoS fD) 1 N
                      (fun _ i => fmul (item DoS 0 i)
                                       (fermi (item energyRange 0 i) x t))).
  { eapply evals_ext; [ev |]. intros j i Hj Hi. idxs.
    replace j with 0%nat by lia. reflexivity. }
  apply evals_inv in Hdf. destruct Hdf as (df & -> & Hdf). cbn [bind].
  pose proof (@evals_trapzE _ _ _ _ _ _ _ Hdf HeE
                (fun j k _ _ => eq_refl)) as Htr.
  cbn [trapzE bind] in Htr.
  destruct Htr as (tmp & -> & Hrt & Hct & Hft). cbn [bind].
  rewrite Hct. cbn [Nat.eqb]. rewrite Hft by lia. reflexivity.
Qed.

End Concentration.

Section Candidates.

Open Scope R_scope.

(** The candidates of the scan: for every temperature index, the 4000
    entries of [np.linspace] from 0.2 eV below to 0.2 eV above the first
    guess. *)
Lemma fermi_candidates_window fermilevel nT :
  nrows fermilevel = 1%nat -> ncols fermilevel = nT ->
  exists any_step_zero,
    evals (fermi_candidates fermilevel) nT 4000
          (fun k m =>
             linspace_val (fsub (item fermilevel 0 k) (Fin (2 / 10)))
                          (fadd (item fermilevel 0 k) (Fin (2 / 10)))
                          4000 any_step_zero m).
Proof.
  intros Hr Hc. unfold fermi_candidates.
  pose proof (@evals_Ok _ _ _ Hr Hc) as Hfl.
  destruct (row0_evals Hfl) as (fl0 & -> & Hr0 & Hc0 & Hf0). cbn [bind].
  pose proof (@evals_Ok _ _ _ Hr0 Hc0) as Hfl0.
  assert (Hlo : evals (Ok fl0 - sc (Fin (2 / 10)))%nd 1 nT
                      (fun _ k => fsub (item fermilevel 0 k) (Fin (2 / 10)))).
  { eapply evals_ext; [ev |]. intros j k Hj Hk. idxs.
    replace j with 0%nat by lia. rewrite Hf0 by exact Hk. reflexivity. }
  apply evals_inv in Hlo. destruct Hlo as (lo & -> & Hlo). cbn [bind].
  assert (Hhi : evals (Ok fl0 + sc (Fin (2 / 10)))%nd 1 nT
                      (fun _ k => fadd (item fermilevel 0 k) (Fin (2 / 10)))).
  { eapply evals_ext; [ev |]. intros j k Hj Hk. idxs.
    replace j with 0%nat by lia. rewrite Hf0 by exact Hk. reflexivity. }
  apply evals_inv in Hhi. destruct Hhi as (hi & -> & Hhi). cbn [bind].
  unfold linspace_nd.
  assert (Hdl : exists g, evals (bop fsub hi lo) 1 nT g).
  { eexists. ev. }
  destruct Hdl as (g & Hdl). apply evals_inv in Hdl.
  destruct Hdl as (delta & -> & Hdl). cbn [bind].
  destruct (evals_shape Hdl) as [_ Hcd].
  destruct (evals_shape Hlo) as [_ Hcl].
  destruct (evals_shape Hhi) as [_ Hch].
  eexists. eexists. split; [reflexivity |].
  cbn [transpose nrows ncols item]. repeat split; [exact Hcd |].
  intros k m Hk Hm. rewrite Hcl, Hch, bidx_lt by exact Hk.
  rewrite (evals_item Hlo), (evals_item Hhi) by (lia || exact Hk).
  reflexivity.
Qed.

End Candidates.

Section SelfConsistent.

Import Spec.
Open Scope R_scope.

Lemma tile_cols_evals a n k :
  nrows a = 1%nat -> ncols a = n ->
  evals (Ok (tile_cols (transpose a) k)) n k (fun i _ => item a 0 i).
Proof.
  intros Hr Hc. eexists. split; [reflexivity |].
  cbn [tile_cols transpose nrows ncols item]. rewrite Hr, Hc, Nat.mul_1_l.
  repeat split.
Qed.

(** The distance that the scan minimises at the temperature index [k]:
    [|c - |n||] for the target [c] and the concentration [n] of the
    candidate [i]. *)
Lemma abs_diff_evals carrierConcentration results nT K :
  nrows carrierConcentration = 1%nat -> ncols carrierConcentration = nT ->
  nrows results = nT -> ncols results = K ->
  exists adiff,
    (diff <- (Ok (tile_cols (transpose carrierConcentration) K)
              - lift1 fabs (Ok results))%nd ;;
     Ok (amap fabs diff)) = Ok adiff /\
    nrows adiff = nT /\ ncols adiff = K /\
    forall k i, (k < nT)%nat -> (i < K)%nat ->
      item adiff k i
      = fabs (fsub (item carrierConcentration 0 k) (fabs (item results k i))).
Proof.
  intros HrC HcC Hrr Hcr.
  pose proof (@tile_cols_evals _ _ K HrC HcC) as Htile.
  pose proof (@evals_Ok _ _ _ Hrr Hcr) as Hres.
  assert (Hdiff : evals (Ok (tile_cols (transpose carrierConcentration) K)
                         - lift1 fabs (Ok results))%nd nT K
                        (fun k m => fsub (item carrierConcentration 0 k)
                                         (fabs (item results k m)))).
  { eapply evals_ext; [ev |]. intros k m Hk Hm. idxs. reflexivity. }
  destruct Hdiff as (diff & -> & Hrd & Hcd & Hfd). cbn [bind].
  eexists. split; [reflexivity |]. cbn [amap nrows ncols item].
  repeat split; try assumption.
  intros k i Hk Hi. rewrite Hfd by assumption. reflexivity.
Qed.

(** The scan of [fermiLevelSelfConsistent], step by step: the candidates
    [fermi], the table [results] of their concentrations, and the entries
    of [Ef] and [n], read at the index of [np.argmin]. *)
Lemma fermiLevelSelfConsistent_scan
      (carrierConcentration Temp energyRange DoS fermilevel : ndarray) :
  nrows energyRange = 1%nat -> nrows DoS = 1%nat ->
  ncols DoS = ncols energyRange ->
  nrows Temp = 1%nat ->
  nrows fermilevel = 1%nat -> ncols fermilevel = ncols Temp ->
  nrows carrierConcentration = 1%nat ->
  ncols carrierConcentration = ncols Temp ->
  exists (fermi results Ef n : ndarray) (any_step_zero : bool),
    fermiLevelSelfConsistent carrierConcentration Temp energyRange DoS
                             fermilevel = Ok (Ef, n) /\
    evals (Ok fermi) (ncols Temp) 4000
          (fun k m =>
             linspace_val (fsub (item fermilevel 0 k) (Fin (2 / 10)))
                          (fadd (item fermilevel 0 k) (Fin (2 / 10)))
                          4000 any_step_zero m) /\
    evals (Ok results) (ncols Temp) 4000
          (fun k m => carriers (item energyRange 0) (item DoS 0)
                               (ncols energyRange) (item fermi k m)
                               (item Temp 0 k)) /\
    let min_idx k :=
      argmin (fun i => fabs (fsub (item carrierConcentration 0 k)
                                  (fabs (item results k i)))) 4000 in
    evals (Ok Ef) 1 (ncols Temp) (fun _ k => item fermi k (min_idx k)) /\
    evals (Ok n) 1 (ncols Temp) (fun _ k => item results k (min_idx k)).
Proof.
  intros HrE HrD HcD HrT HrF HcF HrC HcC.
  set (N := ncols energyRange) in *. set (nT := ncols Temp) in *.
  set (K := 4000%nat) in *.
  assert (HK : (0 < K)%nat) by (apply Nat.ltb_lt; reflexivity).
  unfold fermiLevelSelfConsistent, fermiLevelSelfConsistent_idx.
  destruct (@fermi_candidates_window _ _ HrF HcF) as (b & Hfermi).
  fold K in Hfermi.
  destruct (evals_inv Hfermi) as (fermi & Hf & Hfermi'). rewrite Hf.
  cbn [bind]. destruct (evals_shape Hfermi') as [Hrf Hcf].
  (* the table of concentrations *)
  assert (Hres : evals (result_array Temp energyRange DoS fermi) nT K
                       (fun k m => carriers (item energyRange 0) (item DoS 0)
                                            N (item fermi k m)
                                            (item Temp 0 k))).
  { unfold result_array.
    pose proof (@evals_Ok _ _ _ HrT eq_refl) as HeT.
    destruct (row0_evals HeT) as (Temp0 & -> & _ & _ & HT0). cbn [bind].
    fold nT. rewrite Hcf. apply fill_evals. intros k m Hk Hm.
    rewrite Hrf. replace (k <? nT)%nat with true
      by (symmetry; apply Nat.ltb_lt; exact Hk).
    rewrite HT0 by exact Hk.
    apply concentration_at_value; assumption. }
  destruct (evals_inv Hres) as (results & Hr & Hres'). rewrite Hr.
  cbn [bind]. destruct (evals_shape Hres') as [Hrr Hcr].
  (* the distances to the target and their first minimum *)
  unfold abs_diff. rewrite Hcf.
  destruct (@abs_diff_evals _ _ nT K HrC HcC Hrr Hcr)
    as (adiff & -> & Hra & Hca & Hfa).
  cbn [bind]. unfold argmin_axis1. rewrite Hca, Hra.
  replace (K =? 0)%nat with false by reflexivity. cbn [bind].
  fold nT. rewrite Hrf, !Nat.leb_refl. cbn [andb bind fst snd].
  exists fermi, results. do 2 eexists. exists b.
  split; [reflexivity |]. split; [exact Hfermi' |]. split; [exact Hres' |].
  cbn zeta. split; eexists; (split; [reflexivity |]);
    cbn [nrows ncols item]; repeat split;
    intros j k Hj Hk;
    replace (k <? nT)%nat with true by (symmetry; apply Nat.ltb_lt; exact Hk);
    f_equal; apply argmin_ext; try exact HK;
    intros i Hi; apply Hfa; assumption.
Qed.

(** For a grid and a density of states of one row of one length and
    targets, first guesses and temperatures of one row of one length,
    [fermiLevelSelfConsistent] returns [Ef] and [n] of one entry per
    temperature.  At the temperature index [k] the candidates are the 4000
    entries of [np.linspace] from the guess minus 0.2 to the guess plus
    0.2, the concentration of a candidate is the trapezoidal integral of
    the density of states times the occupation, and [Ef] and [n] hold one
    candidate and the concentration of that same candidate.  (The formulas
    are those of the float operations in the order of the source; their
    rounding is not modelled, and which candidate is selected is the
    subject of the theorem on the selection in binary64.) *)
Theorem fermiLevelSelfConsistent_returns_candidate
        (carrierConcentration Temp energyRange DoS fermilevel : ndarray) :
  nrows energyRange = 1%nat -> nrows DoS = 1%nat ->
  ncols DoS = ncols energyRange ->
  nrows Temp = 1%nat ->
  nrows fermilevel = 1%nat -> ncols fermilevel = ncols Temp ->
  nrows carrierConcentration = 1%nat ->
  ncols carrierConcentration = ncols Temp ->
  exists (fermi results : nat -> nat -> npfloat) (Ef n : ndarray)
         (any_step_zero : bool),
    fermiLevelSelfConsistent carrierConcentration Temp energyRange DoS
                             fermilevel = Ok (Ef, n) /\
    nrows Ef = 1%nat /\ ncols Ef = ncols Temp /\
    nrows n = 1%nat /\ ncols n = ncols Temp /\
    forall k, (k < ncols Temp)%nat ->
      (forall m, (m < 4000)%nat ->
         fermi k m
         = linspace_val (fsub (item fermilevel 0 k) (Fin (2 / 10)))
                        (fadd (item fermilevel 0 k) (Fin (2 / 10)))
                        4000 any_step_zero m /\
         results k m
         = carriers (item energyRange 0) (item DoS 0) (ncols energyRange)
                    (fermi k m) (item Temp 0 k)) /\
      exists m, (m < 4000)%nat /\
        item Ef 0 k = fermi k m /\ item n 0 k = results k m.
Proof.
  intros HrE HrD HcD HrT HrF HcF HrC HcC.
  destruct (@fermiLevelSelfConsistent_scan carrierConcentration Temp
              energyRange DoS fermilevel)
    as (fermi & results & Ef & n & b & Hrun & Hfermi & Hres & HEf & Hn);
    try assumption.
  exists (item fermi), (item results), Ef, n, b.
  destruct (evals_shape HEf) as [HrEf HcEf].
  destruct (evals_shape Hn) as [Hrn Hcn].
  split; [exact Hrun |]. repeat split; try assumption.
  - apply (evals_item Hfermi); assumption.
  - apply (evals_item Hres); assumption.
  - eexists. split; [| split].
    + eapply argmin_first_minimum. apply Nat.ltb_lt. reflexivity.
    + apply (evals_item HEf); [lia | assumption].
    + apply (evals_item Hn); [lia | assumption].
Qed.

End SelfConsistent.

(** The scan on a grid of two energies at 300 K, for a target of 1e25
    carriers per cubic metre and a first guess of 0 eV. *)
Lemma fermiLevelSelfConsistent_returns_candidate_witness :
  exists (fermi results : nat -> npfloat) Ef n m,
    fermiLevelSelfConsistent Inputs.N25 Inputs.T300 Inputs.grid01
                             Inputs.flatDoS Inputs.Ef0 = Ok (Ef, n) /\
    (m < 4000)%nat /\ item Ef 0 0 = fermi m /\ item n 0 0 = results m.
Proof.
  destruct (@fermiLevelSelfConsistent_returns_candidate
              Inputs.N25 Inputs.T300 Inputs.grid01 Inputs.flatDoS Inputs.Ef0)
    as (fermi & results & Ef & n & b & Hrun & _ & _ & _ & _ & Hsel);
    try reflexivity.
  destruct (Hsel 0%nat) as (_ & m & Hm & HEf & Hn); [cbn; lia |].
  exists (fermi 0%nat), (results 0%nat), Ef, n, m.
  split; [exact Hrun |]. split; [exact Hm |]. split; [exact HEf | exact Hn].
Defined.

(** *** A density of states that is negative

    On [Inputs.grid01] with the density of states [Inputs.DoS_neg] the
    concentration of a Fermi level [x] is [- f(0)], the occupation of the
    first energy with the sign changed. *)

Section NegativeDensity.

Import Spec.
Open Scope R_scope.

Lemma fle_fin_inv x y : fle (Fin x) (Fin y) = true -> x <= y.
Proof.
  unfold fle. cbn [flt feq].
  destruct (Rlt_dec x y), (Req_dec_T x y); cbn [orb]; intros H;
    try discriminate H; lra.
Qed.

Lemma INR_3999 : INR 3999 = 3999.
Proof. rewrite INR_IZR_INZ. reflexivity. Qed.

Lemma kT300_lower : / 40 < kB * 300.
Proof.
  unfold kB.
  assert (H14 : 10 ^ 14 = 100000000000000) by (simpl; lra).
  rewrite H14. lra.
Qed.

(** At 300 K the exponents of the scan are far from the bounds of
    [np.exp]. *)
Lemma exponent_range e x :
  0 <= e <= 1 -> - (2 / 10) <= x <= 2 / 10 ->
  exp_underflow < (e - x) / (kB * 300) < exp_overflow.
Proof.
  intros He Hx. pose proof kT300_lower as Hc. pose proof ln_lt_2 as Hln.
  set (c := kB * 300) in *. set (q := (e - x) / c).
  assert (Hq : q * c = e - x) by (unfold q; field; lra).
  unfold exp_underflow, exp_overflow.
  assert (Hb : -50 < q < 50).
  { split.
    - destruct (Rlt_dec (-50) q) as [H | H]; [exact H | exfalso].
      assert (q * c <= -50 * c) by (apply Rmult_le_compat_r; lra). lra.
    - destruct (Rlt_dec q 50) as [H | H]; [exact H | exfalso].
      assert (50 * c <= q * c) by (apply Rmult_le_compat_r; lra). lra. }
  lra.
Qed.

Lemma fermi_fin e ef t :
  0 < t -> exp_underflow < (e - ef) / (kB * t) < exp_overflow ->
  fermi (Fin e) (Fin ef) (Fin t) = Fin (occupation e ef t).
Proof.
  intros Ht Hr. unfold fermi, occupation.
  rewrite fermi_exp_fin by exact Ht. rewrite fexp_fin by exact Hr.
  rewrite fadd_fin, fdiv_fin; [reflexivity |].
  pose proof (exp_pos ((e - ef) / (kB * t))). lra.
Qed.

Lemma occupation_bounds e x t : 0 < occupation e x t < 1.
Proof.
  unfold occupation. pose proof (exp_pos ((e - x) / (kB * t))) as Hp.
  split; [apply Rdiv_lt_0_compat; lra |].
  apply (Rmult_lt_reg_r (exp ((e - x) / (kB * t)) + 1)); [lra |].
  unfold Rdiv. rewrite Rmult_assoc, Rinv_l by lra. lra.
Qed.

(** The occupation of an energy grows with the Fermi level. *)
Lemma occupation_increasing x y :
  x < y -> occupation 0 x 300 < occupation 0 y 300.
Proof.
  intros Hxy. pose proof kT300_lower as Hc. unfold occupation.
  set (c := kB * 300) in *.
  assert (He : exp ((0 - y) / c) < exp ((0 - x) / c)).
  { apply exp_increasing. unfold Rdiv. apply Rmult_lt_compat_r.
    - apply Rinv_0_lt_compat. lra.
    - lra. }
  pose proof (exp_pos ((0 - y) / c)) as Hy.
  pose proof (exp_pos ((0 - x) / c)) as Hx.
  unfold Rdiv. rewrite !Rmult_1_l.
  apply Rinv_lt_contravar; [apply Rmult_lt_0_compat; lra | lra].
Qed.

Lemma carriers_neg x :
  - (2 / 10) <= x <= 2 / 10 ->
  carriers (item Inputs.grid01 0) (item Inputs.DoS_neg 0) 2 (Fin x) (Fin 300)
  = Fin (- occupation 0 x 300).
Proof.
  intros Hx. unfold carriers, integral. cbn [Nat.sub fsum].
  change (item Inputs.grid01 0 1) with (Fin 1).
  change (item Inputs.grid01 0 0) with (Fin 0).
  change (item Inputs.DoS_neg 0 1) with (Fin 0).
  change (item Inputs.DoS_neg 0 0) with (Fin (-2)).
  rewrite !fermi_fin by (lra || (apply exponent_range; lra)).
  rewrite !fmul_fin, fadd_fin, fsub_fin, fmul_fin, fdiv_fin, fadd_fin by lra.
  f_equal. field.
Qed.

Lemma candidate_range m :
  (m <= 3999)%nat -> - (2 / 10) <= candidate 0 m <= 2 / 10.
Proof.
  intros Hm. unfold candidate.
  pose proof (pos_INR m) as H0. apply le_INR in Hm. rewrite INR_3999 in Hm.
  split; [lra |].
  assert (INR m * (4 / 10 / 3999) <= 3999 * (4 / 10 / 3999))
    by (apply Rmult_le_compat_r; lra).
  lra.
Qed.

Lemma candidate_increasing m1 m2 :
  (m1 < m2)%nat -> candidate 0 m1 < candidate 0 m2.
Proof.
  intros H. apply lt_INR in H. unfold candidate.
  assert (INR m1 * (4 / 10 / 3999) < INR m2 * (4 / 10 / 3999))
    by (apply Rmult_lt_compat_r; lra).
  lra.
Qed.

Lemma candidate_last : candidate 0 3999 = 2 / 10.
Proof. unfold candidate. rewrite INR_3999. field. Qed.

End NegativeDensity.

(** C1 fails as stated: the claim has the scan minimise [|n - c|].  With
    the density of states [-2, 0] on the grid [0, 1] eV, the target 2, the
    first guess 0 eV and 300 K, every concentration is negative; the code
    compares the target with its magnitude and returns the last candidate,
    0.2 eV (concentration about -0.9996), although the concentration of
    the first candidate, -0.2 eV (about -0.0004), is strictly closer to
    the target. *)
Lemma fermiLevelSelfConsistent_misses_closest :
  exists Ef n n_first,
    fermiLevelSelfConsistent Inputs.N_two Inputs.T300 Inputs.grid01
                             Inputs.DoS_neg Inputs.Ef0 = Ok (Ef, n) /\
    item Ef 0 0 = Fin (2 / 10) /\
    concentration_at Inputs.grid01 Inputs.DoS_neg
                     (fsub (item Inputs.Ef0 0 0) (Fin (2 / 10))) (Fin 300)
    = Ok n_first /\
    flt (fabs (fsub n_first (item Inputs.N_two 0 0)))
        (fabs (fsub (item n 0 0) (item Inputs.N_two 0 0))) = true.
Proof.
  destruct (@fermiLevelSelfConsistent_scan Inputs.N_two Inputs.T300
              Inputs.grid01 Inputs.DoS_neg Inputs.Ef0)
    as (fermi & results & Ef & n & b & Hrun & Hfermi & Hres & HEf & Hn);
    try reflexivity.
  apply (fun H => evals_item H (i := 0%nat) (j := 0%nat)) in HEf;
    [| lia | cbn; lia].
  apply (fun H => evals_item H (i := 0%nat) (j := 0%nat)) in Hn;
    [| lia | cbn; lia].
  pose proof (fun m Hm => evals_item Hfermi (i := 0%nat) (j := m)
                                     ltac:(cbn; lia) Hm) as Hcand.
  pose proof (fun m Hm => evals_item Hres (i := 0%nat) (j := m)
                                     ltac:(cbn; lia) Hm) as Hcells.
  cbn beta in HEf, Hn, Hcand, Hcells.
  change (item Inputs.Ef0 0 0) with (Fin 0) in *.
  change (item Inputs.T300 0 0) with (Fin 300) in *.
  change (item Inputs.N_two 0 0) with (Fin 2) in *.
  change (ncols Inputs.grid01) with 2%nat in *.
  assert (Hmin := @argmin_first_minimum
                    (fun i => fabs (fsub (Fin 2) (fabs (item results 0 i))))
                    4000 ltac:(apply Nat.ltb_lt; reflexivity)).
  set (m := argmin _ 4000) in *.
  assert (Hfermi' : forall i, (i < 4000)%nat ->
                              item fermi 0 i = Fin (Spec.candidate 0 i)).
  { intros i Hi. rewrite Hcand by exact Hi.
    rewrite fsub_fin, fadd_fin, linspace_val_fin by lia.
    change (4000 - 1)%nat with 3999%nat. rewrite INR_3999.
    unfold Spec.candidate. f_equal. field. }
  assert (Hres' : forall i, (i < 4000)%nat ->
                    item results 0 i
                    = Fin (- Spec.occupation 0 (Spec.candidate 0 i) 300)).
  { intros i Hi. rewrite Hcells by exact Hi.
    rewrite Hfermi' by exact Hi. apply carriers_neg, candidate_range. lia. }
  assert (Hd : forall i, (i < 4000)%nat ->
                 fabs (fsub (Fin 2) (fabs (item results 0 i)))
                 = Fin (2 - Spec.occupation 0 (Spec.candidate 0 i) 300)).
  { intros i Hi. rewrite Hres' by exact Hi.
    pose proof (occupation_bounds 0 (Spec.candidate 0 i) 300) as Ho.
    rewrite fabs_fin, fsub_fin, fabs_fin. f_equal.
    rewrite Rabs_Ropp, (Rabs_pos_eq (Spec.occupation _ _ _)) by lra.
    apply Rabs_pos_eq. lra. }
  assert (Hm : m = 3999%nat).
  { destruct Hmin as (Hlt & [[Hnan _] | [Hle _]]).
    - rewrite Hd in Hnan by exact Hlt. discriminate Hnan.
    - specialize (Hle 3999%nat ltac:(lia)).
      rewrite !Hd in Hle by lia. apply fle_fin_inv in Hle.
      destruct (Nat.eq_dec m 3999) as [E | E]; [exact E | exfalso].
      assert (Hc : Spec.candidate 0 m < Spec.candidate 0 3999)
        by (apply candidate_increasing; lia).
      apply occupation_increasing in Hc. lra. }
  rewrite Hm in HEf, Hn.
  exists Ef, n, (Fin (- Spec.occupation 0 (0 - 2 / 10) 300)).
  split; [exact Hrun |]. split; [| split].
  - rewrite HEf, Hfermi' by lia. f_equal. apply candidate_last.
  - rewrite concentration_at_value by reflexivity.
    rewrite fsub_fin. f_equal. apply carriers_neg. lra.
  - rewrite Hn, Hres' by lia. rewrite candidate_last.
    pose proof (occupation_bounds 0 (0 - 2 / 10) 300) as H1.
    pose proof (occupation_bounds 0 (2 / 10) 300) as H2.
    assert (H3 : Spec.occupation 0 (0 - 2 / 10) 300
                 < Spec.occupation 0 (2 / 10) 300)
      by (apply occupation_increasing; lra).
    rewrite !fsub_fin, !fabs_fin. apply flt_fin_true.
    rewrite !Rabs_left by lra. lra.
Qed.

(** *** The selection in binary64 *)

Section SelectionBinary64.

Import SpecFloat.
Import Binary64.

Open Scope Z_scope.

Ltac key_cases :=
  unfold key_compare in *;
  repeat match goal with
         | |- context [(?a ?= ?b)%Z] => destruct (Z.compare_spec a b)
         | H : context [(?a ?= ?b)%Z] |- _ => destruct (Z.compare_spec a b)
         end;
  try reflexivity; try discriminate; try congruence; try lia.

Lemma key_compare_refl a : key_compare a a = Eq.
Proof. destruct a as [[a1 a2] a3]. key_cases. Qed.

Lemma key_compare_Gt_Lt a b : key_compare a b = Gt -> key_compare b a = Lt.
Proof.
  destruct a as [[a1 a2] a3], b as [[b1 b2] b3]. intros H. key_cases.
Qed.

Lemma key_compare_Lt_le a b c :
  key_compare a b = Lt -> key_compare b c <> Gt -> key_compare a c = Lt.
Proof.
  destruct a as [[a1 a2] a3], b as [[b1 b2] b3], c as [[c1 c2] c3].
  intros H1 H2. key_cases.
Qed.

(** The IEEE comparison of two floats, neither of them [nan], is the
    lexicographic comparison of their keys. *)
Lemma SFcompare_key x y :
  is_nan x = false -> is_nan y = false ->
  SFcompare x y = Some (key_compare (order_key x) (order_key y)).
Proof.
  destruct x as [sx | [] | | [] mx ex], y as [sy | [] | | [] my ey];
    cbn [is_nan]; intros Hx Hy; try discriminate; try reflexivity.
  cbn [SFcompare order_key key_compare Z.compare].
  rewrite Z.compare_opp, (Z.compare_antisym ex ey).
  destruct (ex ?= ey); reflexivity.
Qed.

Lemma SFleb_refl x : is_nan x = false -> SFleb x x = true.
Proof.
  intros H. unfold SFleb. rewrite SFcompare_key by exact H.
  rewrite key_compare_refl. reflexivity.
Qed.

Lemma SFleb_not_nan x y :
  SFleb x y = true -> is_nan x = false /\ is_nan y = false.
Proof.
  destruct x as [| | |], y as [| | |]; intros H; split;
    try reflexivity; discriminate H.
Qed.

Lemma SFltb_SFleb x y : SFltb x y = true -> SFleb x y = true.
Proof.
  unfold SFltb, SFleb. destruct (SFcompare x y) as [[| |] |];
    intros H; try reflexivity; discriminate H.
Qed.

Lemma SFltb_of_not_ge x y :
  is_nan x = false -> is_nan y = false -> ge x y = false ->
  SFltb x y = true.
Proof.
  intros Hx Hy. unfold ge, SFleb, SFltb.
  rewrite !SFcompare_key by assumption.
  destruct (key_compare (order_key y) (order_key x)) eqn:H;
    intros Hge; try discriminate Hge.
  rewrite (key_compare_Gt_Lt _ _ H). reflexivity.
Qed.

Lemma SFltb_SFleb_trans x y z :
  SFltb x y = true -> SFleb y z = true -> SFltb x z = true.
Proof.
  intros H1 H2.
  assert (Hx : is_nan x = false /\ is_nan y = false)
    by (apply SFleb_not_nan, SFltb_SFleb, H1).
  destruct (SFleb_not_nan _ _ H2) as [_ Hz]. destruct Hx as [Hx Hy].
  unfold SFltb, SFleb in *. rewrite SFcompare_key in * by assumption.
  destruct (key_compare (order_key x) (order_key y)) eqn:H;
    try discriminate H1.
  rewrite (@key_compare_Lt_le _ (order_key y)); [reflexivity | exact H |].
  destruct (key_compare (order_key y) (order_key z));
    [discriminate | discriminate | discriminate H2].
Qed.

Close Scope Z_scope.

Section Scan.

Variable f : nat -> float64.
Variable n : nat.

Lemma argmin_loop_first_minimum i rem m :
  (m < i)%nat -> (i + rem = n)%nat ->
  (forall j, (j < i)%nat -> SFleb (f m) (f j) = true) ->
  (forall j, (j < m)%nat -> SFltb (f m) (f j) = true) ->
  first_minimum f n (argmin_loop f i rem m).
Proof.
  revert i m. induction rem as [| rem IH]; intros i m Hm Hn Hle Hlt.
  - cbn [argmin_loop]. replace n with i by lia.
    split; [exact Hm |]. right. split; assumption.
  - cbn [argmin_loop].
    destruct (ge (f i) (f m)) eqn:Hge; cbn [negb].
    + apply IH; try lia; try assumption.
      intros j Hj. destruct (Nat.eq_dec j i) as [-> | Hne];
        [exact Hge | apply Hle; lia].
    + destruct (is_nan (f i)) eqn:Hnan.
      * split; [lia |]. left. split; [exact Hnan |].
        intros j Hj. apply (SFleb_not_nan _ _ (Hle j Hj)).
      * assert (Hi : SFltb (f i) (f m) = true).
        { apply SFltb_of_not_ge; [exact Hnan | | exact Hge].
          apply (SFleb_not_nan _ _ (Hle m Hm)). }
        apply IH; try lia.
        -- intros j Hj. destruct (Nat.eq_dec j i) as [-> | Hne].
           ++ apply SFleb_refl. exact Hnan.
           ++ apply SFltb_SFleb, (SFltb_SFleb_trans _ _ _ Hi), Hle. lia.
        -- intros j Hj. apply (SFltb_SFleb_trans _ _ _ Hi), Hle. lia.
Qed.

Lemma argmin_binary64_first_minimum :
  (0 < n)%nat -> first_minimum f n (Binary64.argmin f n).
Proof.
  intros Hn. unfold Binary64.argmin. destruct (is_nan (f 0%nat)) eqn:H0.
  - split; [exact Hn |]. left. split; [exact H0 |]. intros i Hi. lia.
  - apply argmin_loop_first_minimum; try lia.
    intros j Hj. replace j with 0%nat by lia. apply SFleb_refl. exact H0.
Qed.

End Scan.

(** C1, as the code has it, in binary64.  From the table [fermi] of the
    candidates and the table [result_array] of their concentrations, one
    row per temperature and at least one column, the second half of
    [fermiLevelSelfConsistent] returns one Fermi level and one
    concentration per temperature.  At the temperature index [k] they are
    the entries of the two tables at the index that [np.argmin] selects
    for the distance [|c - |n||] between the target [c] and the magnitude
    of the concentration [n]: the first [nan], and without one the first
    index of the least distance.  The distance is computed and compared
    as float64 does, so that distances that differ by less than their
    rounding count as equal and the earliest wins. *)
Theorem fermiLevelSelfConsistent_selects_first_minimum
        (carrierConcentration : nat -> float64) (fermi result_array : table) :
  (0 < cols result_array)%nat ->
  exists Ef n,
    selection carrierConcentration fermi result_array = Ok (Ef, n) /\
    length Ef = rows result_array /\ length n = rows result_array /\
    forall k, (k < rows result_array)%nat ->
      exists m,
        first_minimum
          (fun i => distance (carrierConcentration k)
                             (cell result_array k i))
          (cols result_array) m /\
        nth k Ef S754_nan = cell fermi k m /\
        nth k n S754_nan = cell result_array k m.
Proof.
  intros HK. unfold selection.
  replace (cols result_array =? 0)%nat with false
    by (symmetry; apply Nat.eqb_neq; lia).
  do 2 eexists. split; [reflexivity |].
  rewrite !length_map, !length_seq. split; [reflexivity |].
  split; [reflexivity |]. intros k Hk.
  exists (Binary64.argmin
            (fun i => distance (carrierConcentration k)
                               (cell result_array k i))
            (cols result_array)).
  split; [apply argmin_binary64_first_minimum; exact HK |].
  rewrite !nth_map_seq_float by exact Hk. split; reflexivity.
Qed.

End SelectionBinary64.

(** C1 on two candidates whose concentrations, 0.25 and 0.5, both vanish
    next to the target [2^60]: the two distances round to [2^60], and the
    first candidate is returned. *)
Lemma fermiLevelSelfConsistent_selects_first_minimum_witness :
  exists Ef n,
    Binary64.selection (fun _ => Binary64.two_60) Binary64.fermi_two
                       Binary64.result_two = Ok (Ef, n) /\
    exists m,
      Binary64.first_minimum
        (fun i => Binary64.distance Binary64.two_60
                                    (Binary64.cell Binary64.result_two 0 i))
        2 m /\
      nth 0 Ef SpecFloat.S754_nan = Binary64.cell Binary64.fermi_two 0 m /\
      nth 0 n SpecFloat.S754_nan = Binary64.cell Binary64.result_two 0 m.
Proof.
  destruct (@fermiLevelSelfConsistent_selects_first_minimum
              (fun _ => Binary64.two_60) Binary64.fermi_two
              Binary64.result_two)
    as (Ef & n & Hrun & _ & _ & Hsel).
  - cbn. lia.
  - exists Ef, n. split; [exact Hrun |]. apply (Hsel 0%nat). cbn. lia.
Defined.

(** On these tables the distances [2^60 - 0.25] and [2^60 - 0.5] both
    round to [2^60]: the first candidate, -0.5 eV, is returned with its
    concentration 0.25, although the second one is closer in exact
    arithmetic. *)
Lemma selection_ties_by_rounding :
  Binary64.selection (fun _ => Binary64.two_60) Binary64.fermi_two
                     Binary64.result_two
  = Ok ([SpecFloat.SFopp Binary64.half], [Binary64.quarter]).
Proof. vm_compute. reflexivity. Qed.

(** ** One first guess for several temperatures *)

Section SingleGuess.

Lemma mapM_ok_ex (A B : Type) (f : A -> res B) l :
  (forall x, In x l -> exists b, f x = Ok b) -> exists bs, mapM f l = Ok bs.
Proof.
  induction l as [| a l IH]; intros H; [exists []; reflexivity |].
  destruct (H a (or_introl eq_refl)) as (b & Hb).
  destruct IH as (bs & Hbs); [intros x Hx; apply H; right; exact Hx |].
  exists (b :: bs). cbn [mapM]. rewrite Hb. cbn [bind]. rewrite Hbs.
  reflexivity.
Qed.

Lemma mapM_raise (A B : Type) (f : A -> res B) l e :
  l <> [] -> (forall x, f x = Raise e) -> mapM f l = Raise e.
Proof.
  intros Hl H. destruct l as [| a l]; [contradiction |].
  cbn [mapM]. rewrite H. reflexivity.
Qed.

(** Whatever the values are, one cell of [result_array] is computed without
    an exception when the grid and the density of states are rows of one
    length. *)
Lemma concentration_at_ok energyRange DoS x t :
  nrows energyRange = 1%nat -> nrows DoS = 1%nat ->
  ncols DoS = ncols energyRange ->
  exists v, concentration_at energyRange DoS x t = Ok v.
Proof.
  intros HrE HrD HcD. set (N := ncols energyRange) in *.
  pose proof (@evals_Ok _ _ _ HrE eq_refl) as HeE. fold N in HeE.
  pose proof (@evals_Ok _ _ _ HrD HcD) as HeD.
  assert (Hx : evals (Ok (scalar x)) 1 1 (fun _ _ => x)) by apply evals_sc.
  assert (Ht : evals (Ok (scalar t)) 1 1 (fun _ _ => t)) by apply evals_sc.
  unfold concentration_at, fermiDistribution.
  assert (Hxi : exists g,
             evals (lift1 fexp
                      ((Ok energyRange - Ok (transpose (scalar x)))
                       / Ok (transpose (scalar t)) / sc (Fin kB))%nd)
                   1 N g) by (eexists; ev).
  destruct Hxi as (g1 & Hxi). apply evals_inv in Hxi.
  destruct Hxi as (xi & -> & Hxi). cbn [bind].
  assert (Hf : exists g, evals (sc (Fin 1) / (Ok xi + sc (Fin 1)))%nd 1 N g)
    by (eexists; ev).
  destruct Hf as (g2 & Hf). apply evals_inv in Hf.
  destruct Hf as (fD & -> & Hf). cbn [bind].
  assert (Hd : exists g,
             evals (sc (Fin (-1)) * Ok xi / sqr (sc (Fin 1) + Ok xi)
                    / Ok (transpose (scalar t)) / sc (Fin kB))%nd 1 N g)
    by (eexists; ev).
  destruct Hd as (g3 & Hd). apply evals_inv in Hd.
  destruct Hd as (dfdE & -> & _). cbn [bind fst].
  assert (Hdf : exists g, evals (bop fmul DoS fD) 1 N g) by (eexists; ev).
  destruct Hdf as (g4 & Hdf). apply evals_inv in Hdf.
  destruct Hdf as (df & -> & Hdf). cbn [bind].
  pose proof (@evals_trapzE _ _ _ _ _ _ g4 Hdf HeE
                (fun j k _ _ => eq_refl)) as Htr.
  cbn [trapzE bind] in Htr. destruct Htr as (tmp & -> & _ & Hct & _).
  cbn [bind]. rewrite Hct. cbn [Nat.eqb]. eexists. reflexivity.
Qed.

Lemma fermi_candidates_shape fermilevel n :
  nrows fermilevel = 1%nat -> ncols fermilevel = n ->
  exists g, evals (fermi_candidates fermilevel) n 4000 g.
Proof.
  intros Hr Hc. unfold fermi_candidates.
  pose proof (@evals_Ok _ _ _ Hr Hc) as Hfl.
  destruct (row0_evals Hfl) as (fl0 & -> & Hr0 & Hc0 & _). cbn [bind].
  pose proof (@evals_Ok _ _ _ Hr0 Hc0) as Hfl0.
  assert (Hlo : exists g, evals (Ok fl0 - sc (Fin (2 / 10)))%nd 1 n g)
    by (eexists; ev).
  destruct Hlo as (g1 & Hlo). apply evals_inv in Hlo.
  destruct Hlo as (lo & -> & Hlo). cbn [bind].
  assert (Hhi : exists g, evals (Ok fl0 + sc (Fin (2 / 10)))%nd 1 n g)
    by (eexists; ev).
  destruct Hhi as (g2 & Hhi). apply evals_inv in Hhi.
  destruct Hhi as (hi & -> & Hhi). cbn [bind].
  unfold linspace_nd.
  assert (Hdl : exists g, evals (bop fsub hi lo) 1 n g) by (eexists; ev).
  destruct Hdl as (g & Hdl). apply evals_inv in Hdl.
  destruct Hdl as (delta & -> & Hdl). cbn [bind].
  destruct (evals_shape Hdl) as [_ Hcd].
  eexists. eexists. split; [reflexivity |].
  cbn [transpose nrows ncols item]. repeat split. exact Hcd.
Qed.

(** A first guess of one entry is not repeated for the temperatures: with
    two temperatures or more the scan of the second temperature reads a row
    of candidates that does not exist, and the call raises [IndexError]. *)
Theorem fermiLevelSelfConsistent_single_guess_raises
        (carrierConcentration Temp energyRange DoS fermilevel : ndarray) :
  nrows energyRange = 1%nat -> nrows DoS = 1%nat ->
  ncols DoS = ncols energyRange ->
  nrows Temp = 1%nat -> (2 <= ncols Temp)%nat ->
  nrows fermilevel = 1%nat -> ncols fermilevel = 1%nat ->
  fermiLevelSelfConsistent carrierConcentration Temp energyRange DoS
                           fermilevel = Raise IndexError.
Proof.
  intros HrE HrD HcD HrT HnT HrF HcF.
  unfold fermiLevelSelfConsistent, fermiLevelSelfConsistent_idx.
  destruct (@fermi_candidates_shape _ _ HrF HcF) as (g & Hfermi).
  apply evals_inv in Hfermi. destruct Hfermi as (fermi & -> & Hfermi).
  cbn [bind]. destruct (evals_shape Hfermi) as [Hrf Hcf].
  unfold result_array, row0. rewrite HrT. cbn [Nat.eqb bind].
  unfold fill. rewrite Hrf, Hcf.
  remember (seq 0 4000) as cols eqn:Hcols.
  assert (Hne : cols <> []).
  { intros H. apply (f_equal (@List.length nat)) in H.
    rewrite Hcols, length_seq in H. discriminate H. }
  clear Hcols.
  destruct (ncols Temp) as [| [| n]]; try lia.
  cbn [seq mapM].
  destruct (@mapM_ok_ex _ _
              (fun i => if (0 <? 1)%nat
                        then concentration_at energyRange DoS
                               (item fermi 0 i)
                               (item (mkarr 1 (S (S n))
                                        (fun _ j => item Temp 0 j)) 0 0)
                        else Raise IndexError)
              cols) as (row & Hrow).
  { intros i _. cbn [Nat.ltb Nat.leb].
    apply concentration_at_ok; assumption. }
  rewrite Hrow. cbn [bind].
  rewrite (@mapM_raise _ _ _ cols IndexError).
  - reflexivity.
  - exact Hne.
  - intros i. reflexivity.
Qed.

End SingleGuess.

(** One first guess, 0 eV, for the temperatures 300 K and 400 K. *)
Lemma fermiLevelSelfConsistent_single_guess_raises_witness :
  fermiLevelSelfConsistent Inputs.N25 Inputs.T_two Inputs.grid01
                           Inputs.flatDoS Inputs.Ef0 = Raise IndexError.
Proof.
  apply fermiLevelSelfConsistent_single_guess_raises; reflexivity.
Defined.

(** ** The band gap *)

Section BandGap.

Open Scope R_scope.

(** [bandGap] for finite temperatures between 0 and 1e9 (so that the
    square does not overflow, be the temperatures floats or integers), a
    finite coefficient [Ao >= 0] and a finite offset [Bo > 0]: the call
    returns an array of the shape of the temperatures whose entries are
    [Eg_o - Ao (T^2 / (T + Bo))]; no entry compares greater than [Eg_o],
    and an entry at zero temperature is [Eg_o].  (The formula is that of
    the float operations in the order of the source; their rounding is not
    modelled.) *)
Theorem bandGap_narrows (Temp : ndarray) (g a b : R) (t : nat -> nat -> R) :
  0 <= a -> 0 < b ->
  (forall i j, (i < nrows Temp)%nat -> (j < ncols Temp)%nat ->
               item Temp i j = Fin (t i j) /\ 0 <= t i j <= 10 ^ 9) ->
  exists Eg,
    bandGap (Fin g) (Fin a) (Fin b) (Some Temp) = Ok Eg /\
    nrows Eg = nrows Temp /\ ncols Eg = ncols Temp /\
    forall i j, (i < nrows Temp)%nat -> (j < ncols Temp)%nat ->
      item Eg i j
      = fsub (Fin g)
             (fmul (Fin a) (fdiv (fsqr (item Temp i j))
                                 (fadd (item Temp i j) (Fin b)))) /\
      fle (item Eg i j) (Fin g) = true /\
      (t i j = 0 -> item Eg i j = Fin g).
Proof.
  intros Ha Hb HT.
  pose proof (@evals_Ok Temp _ _ eq_refl eq_refl) as HeT.
  assert (HEg : evals (sc (Fin g)
                       - sc (Fin a) * (sqr (Ok Temp) / (Ok Temp + sc (Fin b))))%nd
                      (nrows Temp) (ncols Temp)
                      (fun i j =>
                         fsub (Fin g)
                              (fmul (Fin a)
                                    (fdiv (fsqr (item Temp i j))
                                          (fadd (item Temp i j) (Fin b)))))).
  { eapply evals_ext; [ev |]. intros i j Hi Hj. idxs. reflexivity. }
  destruct HEg as (Eg & HEg & Hr & Hc & Hf).
  exists Eg. unfold bandGap. split; [exact HEg |].
  split; [exact Hr |]. split; [exact Hc |].
  intros i j Hi Hj. destruct (HT i j Hi Hj) as [Hv [Ht0 Ht1]].
  rewrite Hf by assumption. split; [reflexivity |].
  rewrite Hv, fsqr_fin, fadd_fin, fdiv_fin, fmul_fin, fsub_fin by lra.
  split.
  - apply fle_fin_true.
    assert (0 <= t i j * t i j / (t i j + b)).
    { apply Rmult_le_pos; [apply Rmult_le_pos; assumption |].
      left. apply Rinv_0_lt_compat. lra. }
    assert (0 <= a * (t i j * t i j / (t i j + b)))
      by (apply Rmult_le_pos; assumption).
    lra.
  - intros H0. rewrite H0. f_equal. field. lra.
Qed.

End BandGap.

(** The gap of silicon at 300 K and 400 K, with the parameters of the
    driver script. *)
Lemma bandGap_narrows_witness :
  exists Eg,
    bandGap (Fin (117 / 100)) (Fin (473 / 10 ^ 6)) (Fin 636)
            (Some Inputs.T_two) = Ok Eg /\
    fle (item Eg 0 0) (Fin (117 / 100)) = true /\
    fle (item Eg 0 1) (Fin (117 / 100)) = true.
Proof.
  destruct (@bandGap_narrows Inputs.T_two (117 / 100) (473 / 10 ^ 6) 636
              (fun _ j => nth j [300; 400] 0)%R)
    as (Eg & Hrun & _ & _ & Hf).
  - lra.
  - lra.
  - intros i [| [| j]] Hi Hj; cbn in Hi, Hj; try lia;
      (split; [reflexivity | cbn; lra]).
  - exists Eg. split; [exact Hrun |]. split.
    + apply (Hf 0%nat 0%nat); cbn; lia.
    + apply (Hf 0%nat 1%nat); cbn; lia.
Defined.

(** ** Signs of the transport coefficients *)

Section TrapezoidalSums.

Open Scope R_scope.

Lemma rsum_nonpos f n :
  (forall k, (k < n)%nat -> f k <= 0) -> Spec.rsum f n <= 0.
Proof.
  induction n as [| n IH]; intros H; cbn [Spec.rsum]; [lra |].
  assert (Spec.rsum f n <= 0) by (apply IH; intros k Hk; apply H; lia).
  assert (f n <= 0) by (apply H; lia). lra.
Qed.

Variables y e : nat -> R.
Variable N : nat.
Hypothesis Hgrid : forall i, (S i < N)%nat -> e i <= e (S i).
Hypothesis Hy : forall i, (i < N)%nat -> y i <= 0.

(** The trapezoidal integral of a function without positive values over an
    increasing grid is not positive. *)
Lemma integral_R_nonpos : Spec.integral_R y e N <= 0.
Proof.
  unfold Spec.integral_R. apply rsum_nonpos. intros k Hk.
  assert (e k <= e (S k)) by (apply Hgrid; lia).
  assert (y k <= 0) by (apply Hy; lia).
  assert (y (S k) <= 0) by (apply Hy; lia).
  nra.
Qed.

End TrapezoidalSums.

Section TransportSigns.

Open Scope R_scope.

Variables E DoS vg dfdE tau : ndarray.
Variable nT : nat.
Variables e d : nat -> R.
Variables v df ta : nat -> nat -> R.

Hypothesis Hbv : bdim (nrows vg) nT = Some nT.
Hypothesis Hbt : bdim (nrows tau) nT = Some nT.
Hypothesis HE :
  forall i, (i < ncols E)%nat -> item E 0 i = Fin (e i).
Hypothesis HD :
  forall i, (i < ncols E)%nat -> item DoS 0 i = Fin (d i) /\ 0 <= d i.
Hypothesis HV :
  forall r i, (r < nrows vg)%nat -> (i < ncols E)%nat ->
              item vg r i = Fin (v r i).
Hypothesis Hdf :
  forall j i, (j < nT)%nat -> (i < ncols E)%nat ->
              item dfdE j i = Fin (df j i) /\ df j i <= 0.
Hypothesis Hta :
  forall r i, (r < nrows tau)%nat -> (i < ncols E)%nat ->
              item tau r i = Fin (ta r i) /\ 0 <= ta r i.

(** The integrand [X tau] at the temperature index [j] and the energy
    index [i]. *)
Let w (j i : nat) : R :=
  d i * (v (bidx (nrows vg) j) i * v (bidx (nrows vg) j) i) * df j i
  * ta (bidx (nrows tau) j) i.

Lemma weight_nonpos j i : (j < nT)%nat -> (i < ncols E)%nat -> w j i <= 0.
Proof.
  intros Hj Hi. unfold w.
  destruct (HD Hi) as [_ Hd]. destruct (Hdf Hj Hi) as [_ Hf].
  destruct (@bdim_idx _ _ _ j Hbt Hj) as [Hr _].
  destruct (Hta Hr Hi) as [_ Ht].
  pose proof (Rle_0_sqr (v (bidx (nrows vg) j) i)) as Hq. unfold Rsqr in Hq.
  set (q := v (bidx (nrows vg) j) i * v (bidx (nrows vg) j) i) in *.
  assert (0 <= d i * q) by (apply Rmult_le_pos; assumption).
  assert (d i * q * df j i <= 0) by nra.
  nra.
Qed.

Lemma X_tau_fin j i :
  (j < nT)%nat -> (i < ncols E)%nat ->
  fmul (Spec.X (item DoS 0) (over_rows vg) (item dfdE) j i)
       (over_rows tau j i) = Fin (w j i).
Proof.
  intros Hj Hi. unfold Spec.X, over_rows, fsqr, w.
  destruct (@bdim_idx _ _ _ j Hbv Hj) as [Hrv _].
  destruct (@bdim_idx _ _ _ j Hbt Hj) as [Hrt _].
  destruct (HD Hi) as [-> _]. rewrite (HV Hrv Hi).
  destruct (Hdf Hj Hi) as [-> _]. destruct (Hta Hrt Hi) as [-> _].
  reflexivity.
Qed.

Lemma int_X_fin j :
  (j < nT)%nat ->
  Spec.int_X (item E 0) (item DoS 0) (over_rows vg) (item dfdE)
             (over_rows tau) (ncols E) j
  = Fin (Spec.integral_R (w j) e (ncols E)).
Proof.
  intros Hj. unfold Spec.int_X. apply integral_fin; [| exact HE].
  intros i Hi. apply X_tau_fin; assumption.
Qed.

(** The conductivity of one temperature is finite and not negative on an
    increasing grid. *)
Lemma Sigma_nonneg j :
  (forall i, (S i < ncols E)%nat -> e i <= e (S i)) -> (j < nT)%nat ->
  exists s,
    Spec.Sigma (item E 0) (item DoS 0) (over_rows vg) (item dfdE)
               (over_rows tau) (ncols E) j = Fin s /\ 0 <= s.
Proof.
  intros Hgrid Hj. unfold Spec.Sigma. rewrite int_X_fin by exact Hj.
  eexists. split; [reflexivity |].
  assert (H : Spec.integral_R (w j) e (ncols E) <= 0).
  { apply integral_R_nonpos; [exact Hgrid |].
    intros i Hi. apply weight_nonpos; assumption. }
  pose proof e2C_pos. nra.
Qed.

End TransportSigns.

(** The electrical conductivity is never negative: for a finite grid that
    does not decrease, a finite density of states and lifetime that are not
    negative, a finite group velocity and a finite occupation derivative
    that is not positive, every entry of [Sigma] compares [>= 0], unless it
    is [nan].  (In float64 a product or a sum of finite numbers can overflow
    and [0 * inf] is [nan]; rounding never changes a sign, so the
    alternative [nan or >= 0] is what the code guarantees.) *)
Theorem electricalProperties_conductivity_nonneg
        (E DoS vg Ef dfdE Temp tau : ndarray) (e d : nat -> R)
        (v df ta : nat -> nat -> R) :
  nrows E = 1%nat -> nrows DoS = 1%nat -> ncols DoS = ncols E ->
  nrows Ef = 1%nat -> ncols Ef = ncols Temp -> nrows Temp = 1%nat ->
  nrows vg = 1%nat \/ nrows vg = ncols Temp -> ncols vg = ncols E ->
  nrows dfdE = ncols Temp -> ncols dfdE = ncols E ->
  nrows tau = 1%nat \/ nrows tau = ncols Temp -> ncols tau = ncols E ->
  (forall i, (i < ncols E)%nat -> item E 0 i = Fin (e i)) ->
  (forall i, (S i < ncols E)%nat -> (e i <= e (S i))%R) ->
  (forall i, (i < ncols E)%nat -> item DoS 0 i = Fin (d i) /\ (0 <= d i)%R) ->
  (forall r i, (r < nrows vg)%nat -> (i < ncols E)%nat ->
               item vg r i = Fin (v r i)) ->
  (forall j i, (j < ncols Temp)%nat -> (i < ncols E)%nat ->
               item dfdE j i = Fin (df j i) /\ (df j i <= 0)%R) ->
  (forall r i, (r < nrows tau)%nat -> (i < ncols E)%nat ->
               item tau r i = Fin (ta r i) /\ (0 <= ta r i)%R) ->
  exists c,
    electricalProperties E DoS vg Ef dfdE Temp tau = Ok c /\
    forall j, (j < ncols Temp)%nat ->
      isnan (item (coef_Sigma c) 0 j) = true \/
      fle (Fin 0) (item (coef_Sigma c) 0 j) = true.
Proof.
  intros HrE HrD HcD HrF HcF HrT Hv HcV Hrd Hcd Ht Hct HE Hgrid HD HV Hdf Hta.
  destruct (@electricalProperties_entries E DoS vg Ef dfdE Temp tau)
    as (c & Hc & HSigma & _); try assumption.
  exists c. split; [exact Hc |]. intros j Hj.
  rewrite (evals_item HSigma) by (assumption || lia).
  destruct (bdim_row_or Hv) as [Hbv _]. destruct (bdim_row_or Ht) as [Hbt _].
  destruct (@Sigma_nonneg E DoS vg dfdE tau (ncols Temp) e d v df ta
              Hbv Hbt HE HD HV Hdf Hta j Hgrid Hj) as (s & -> & Hs).
  right. apply fle_fin_true. exact Hs.
Qed.

(** The conductivity on a grid of two energies at one temperature. *)
Lemma electricalProperties_conductivity_nonneg_witness :
  exists c,
    electricalProperties Inputs.grid01 Inputs.flatDoS Inputs.vg_flat
                         Inputs.Ef0 Inputs.dfdE_flat Inputs.T300 Inputs.tau_c
    = Ok c /\
    (isnan (item (coef_Sigma c) 0 0) = true \/
     fle (Fin 0) (item (coef_Sigma c) 0 0) = true).
Proof.
  destruct (@electricalProperties_conductivity_nonneg
              Inputs.grid01 Inputs.flatDoS Inputs.vg_flat Inputs.Ef0
              Inputs.dfdE_flat Inputs.T300 Inputs.tau_c
              (fun i => INR i) (fun _ => 1%R) (fun _ _ => 1%R)
              (fun _ _ => (-1)%R) (fun _ i => nth i [4; 2] 0)%R)
    as (c & Hc & Hs); try reflexivity; try (left; reflexivity).
  - intros [| [| i]] Hi; [reflexivity | reflexivity | cbn in Hi; lia].
  - intros [| i] Hi; [cbn; lra | cbn in Hi; lia].
  - intros [| [| i]] Hi; cbn in Hi; try lia; (split; [reflexivity | lra]).
  - intros r [| [| i]] Hr Hi; cbn in Hi; try lia; reflexivity.
  - intros j [| [| i]] Hj Hi; cbn in Hi; try lia;
      (split; [reflexivity | lra]).
  - intros r [| [| i]] Hr Hi; cbn in Hi; try lia;
      (split; [reflexivity | cbn; lra]).
  - exists c. split; [exact Hc |]. apply Hs. cbn. lia.
Defined.
